(** * tunnel_v4.py: tunnel orchestration and URL extraction

    A shallow embedding of [src/tunnel_v4.py]: the escape-sequence
    stripping and URL extraction of [pingy_out], its polling loop, the
    authentication selector [pingy_in] and the coordinator [runn].

    Python strings are sequences of Unicode code points; a string is
    modelled as a list of code points ([N]).  The calls into Python's [re]
    module are modelled by a small backtracking matcher with the
    semantics of [re] (leftmost match, greedy repetition, ordered
    alternation), restricted to the constructs the script's patterns
    use. *)

From Stdlib Require Import NArith ZArith Bool String Ascii DecimalString List Lia.
Import ListNotations.

Set Implicit Arguments.

(* ================================================================== *)
(** * Strings *)
(* ================================================================== *)

Definition char := N.
Definition str := list char.

Definition str_eq_dec : forall a b : str, {a = b} + {a <> b} :=
  list_eq_dec N.eq_dec.

(** A literal of the script, as a list of code points. *)
Fixpoint lit (s : string) : str :=
  match s with
  | EmptyString => []
  | String a s' => N_of_ascii a :: lit s'
  end.

(** [lo <= c <= hi], the range [lo-hi] of a character class. *)
Definition in_range (lo hi c : char) : bool :=
  (N.leb lo c && N.leb c hi)%bool.

(** Python's [needle in hay] on strings. *)
Fixpoint starts_with (p s : str) : bool :=
  match p, s with
  | [], _ => true
  | _ :: _, [] => false
  | a :: p', b :: s' => (N.eqb a b && starts_with p' s')%bool
  end.

Fixpoint contains (needle hay : str) : bool :=
  (starts_with needle hay ||
   match hay with
   | [] => false
   | _ :: hay' => contains needle hay'
   end)%bool.

(* ================================================================== *)
(** * The fragment of [re] used by the script *)
(* ================================================================== *)

Module Re.

(** Repetition is only ever applied to a character class in the script's
    patterns, so [Star] and [Plus] take a class. *)
Inductive regex : Type :=
| Eps  : regex
| Chr  : char -> regex                 (* a literal character *)
| Cls  : (char -> bool) -> regex       (* a character class [...] *)
| Cat  : regex -> regex -> regex
| Alt  : regex -> regex -> regex       (* r1|r2, r1 tried first *)
| Opt  : regex -> regex                (* r?, greedy *)
| Star : (char -> bool) -> regex       (* [...]*, greedy *)
| Plus : (char -> bool) -> regex.      (* [...]+, greedy *)

(** The literal text [s] as a pattern. *)
Fixpoint text (s : str) : regex :=
  match s with
  | [] => Eps
  | c :: s' => Cat (Chr c) (text s')
  end.

Section Matcher.
Variable A : Type.

(** Greedy repetition of a class: the longest run first, giving back
    one character at a time while the continuation fails. *)
Fixpoint star (p : char -> bool) (s : str) (k : str -> option A)
  : option A :=
  match s with
  | c :: s' =>
      if p c then
        match star p s' k with
        | Some r => Some r
        | None => k s
        end
      else k s
  | [] => k []
  end.

(** [run r s k]: match [r] at the start of [s] and hand the rest of
    the string to [k]; the first alternative that lets [k] succeed
    wins (backtracking). *)
Fixpoint run (r : regex) (s : str) (k : str -> option A) : option A :=
  match r with
  | Eps => k s
  | Chr c =>
      match s with
      | x :: s' => if N.eqb x c then k s' else None
      | [] => None
      end
  | Cls p =>
      match s with
      | x :: s' => if p x then k s' else None
      | [] => None
      end
  | Cat r1 r2 => run r1 s (fun s1 => run r2 s1 k)
  | Alt r1 r2 =>
      match run r1 s k with
      | Some x => Some x
      | None => run r2 s k
      end
  | Opt r1 =>
      match run r1 s k with
      | Some x => Some x
      | None => k s
      end
  | Star p => star p s k
  | Plus p =>
      match s with
      | x :: s' => if p x then star p s' k else None
      | [] => None
      end
  end.
End Matcher.

(** [pattern.match(s)]: the length of the match at the start of [s]. *)
Definition match_len (r : regex) (s : str) : option nat :=
  match run r s (fun rest => Some rest) with
  | Some rest => Some (length s - length rest)
  | None => None
  end.

(** [re.fullmatch(r, s)] as a test. *)
Definition fullmatch (r : regex) (s : str) : bool :=
  match run r s (fun rest => match rest with [] => Some tt | _ => None end) with
  | Some _ => true
  | None => false
  end.

(** [re.findall(r, s)] for a pattern without groups: the non-overlapping
    matches, scanning left to right.  [skip] counts the characters still
    covered by the last match.  An empty match yields the empty string
    and the scan moves on by one character; no pattern of the script
    has an empty match. *)
Fixpoint findall_from (r : regex) (skip : nat) (s : str) : list str :=
  match s with
  | [] =>
      match skip, match_len r [] with
      | O, Some _ => [[]]
      | _, _ => []
      end
  | _ :: s' =>
      match skip with
      | S n => findall_from r n s'
      | O =>
          match match_len r s with
          | Some (S n) => firstn (S n) s :: findall_from r n s'
          | Some O => [] :: findall_from r 0 s'
          | None => findall_from r 0 s'
          end
      end
  end.

Definition findall (r : regex) (s : str) : list str := findall_from r 0 s.

(** [re.sub(r, '', s)]: every non-overlapping match removed. *)
Fixpoint sub_from (r : regex) (skip : nat) (s : str) : str :=
  match s with
  | [] => []
  | c :: s' =>
      match skip with
      | S n => sub_from r n s'
      | O =>
          match match_len r s with
          | Some (S n) => sub_from r n s'
          | Some O => c :: sub_from r 0 s'
          | None => c :: sub_from r 0 s'
          end
      end
  end.

Definition sub (r : regex) (s : str) : str := sub_from r 0 s.

End Re.

Import Re.

(* ================================================================== *)
(** * [pingy_out]: one poll of the scratch sink *)
(* ================================================================== *)

Local Open Scope N_scope.
Local Open Scope bool_scope.

Definition ch (a : ascii) : char := N_of_ascii a.

Definition one_of (l : list char) (c : char) : bool :=
  existsb (N.eqb c) l.

(** [\s] of a Unicode pattern: the ASCII white space and separators
    (TAB to CR, FS to US, space) and the Unicode white space. *)
Definition is_space (c : char) : bool :=
  in_range 9 13 c || in_range 28 32 c ||
  one_of [133; 160; 5760; 8232; 8233; 8239; 8287; 12288] c ||
  in_range 8192 8202 c.

(** [\x1B(?:[@-Z\\-_]|\[[0-?]*[ -/]*[@-~])] *)
Definition ESC : char := 27.

Definition ansi_escape : regex :=
  Cat (Chr ESC)
      (Alt (Cls (fun c => in_range (ch "@") (ch "Z") c ||
                          in_range (ch "\") (ch "_") c))
           (Cat (Chr (ch "["))
           (Cat (Star (in_range (ch "0") (ch "?")))
           (Cat (Star (in_range (ch " ") (ch "/")))
                (Cls (in_range (ch "@") (ch "~"))))))).

(** [[\x00-\x08\x0B\x0C\x0E-\x1F\x7F]] *)
Definition is_control (c : char) : bool :=
  in_range 0 8 c || N.eqb c 11 || N.eqb c 12 || in_range 14 31 c ||
  N.eqb c 127.

(** The two [sub] calls that clean the content. *)
Definition clean (content : str) : str :=
  sub (Cls is_control) (sub ansi_escape content).

(** [[a-zA-Z0-9-]] *)
Definition is_label (c : char) : bool :=
  in_range (ch "a") (ch "z") c || in_range (ch "A") (ch "Z") c ||
  in_range (ch "0") (ch "9") c || N.eqb c (ch "-").

(** [https?://] *)
Definition scheme : regex :=
  Cat (text (lit "http")) (Cat (Opt (Chr (ch "s"))) (text (lit "://"))).

(** [https?://[a-zA-Z0-9-]+] followed by the literal [suffix]. *)
Definition tunnel_pattern (suffix : string) : regex :=
  Cat scheme (Cat (Plus is_label) (text (lit suffix))).

Definition free_suffix : string := ".a.free.pinggy.link".
Definition pro_suffix : string := ".a.pinggy.link".
Definition legacy_suffix : string := ".pinggy.link".

Definition free_pattern : regex := tunnel_pattern free_suffix.
Definition pro_pattern : regex := tunnel_pattern pro_suffix.
Definition legacy_pattern : regex := tunnel_pattern legacy_suffix.

Definition tunnel_patterns : list regex :=
  [ free_pattern;     (* Free tier format *)
    pro_pattern;      (* Pro tier format *)
    legacy_pattern ]. (* Legacy format *)

(** [[^\s\]]] *)
Definition not_space_bracket (c : char) : bool :=
  negb (is_space c || N.eqb c (ch "]")).

(** [https?://[^\s\]]+(?:pinggy\.link|pinggy\.io)[^\s\]]*] *)
Definition general_pattern : regex :=
  Cat scheme
 (Cat (Plus not_space_bracket)
 (Cat (Alt (text (lit "pinggy.link")) (text (lit "pinggy.io")))
      (Star not_space_bracket))).

Definition dashboard : str := lit "dashboard.pinggy.io".

(** The loop over [tunnel_patterns] that extends [found_urls]. *)
Definition found_urls (cleaned_content : str) : list str :=
  flat_map (fun pattern => findall pattern cleaned_content) tunnel_patterns.

(** One turn of the loop that builds [unique_urls]. *)
Definition add_unique (unique_urls : list str) (url : str) : list str :=
  if (negb (if in_dec str_eq_dec url unique_urls then true else false) &&
      negb (contains dashboard url))%bool
  then unique_urls ++ [url]
  else unique_urls.

Definition unique_of (found : list str) : list str :=
  fold_left add_unique found [].

Definition unique_urls (cleaned_content : str) : list str :=
  unique_of (found_urls cleaned_content).

Definition all_urls (cleaned_content : str) : list str :=
  findall general_pattern cleaned_content.

Definition tunnel_urls (cleaned_content : str) : list str :=
  filter (fun url => negb (contains dashboard url)) (all_urls cleaned_content).

(** Which of the two [return] statements of the poll is reached. *)
Inductive path : Type := Prioritized | Fallback.

(** The URLs one poll prints for the sink content, with the path that
    printed them; [None] when the poll prints nothing and the loop goes
    on. *)
Definition extract (content : str) : option (path * list str) :=
  let cleaned_content := clean content in
  match unique_urls cleaned_content with
  | (_ :: _) as urls => Some (Prioritized, urls)
  | [] =>
      match tunnel_urls cleaned_content with
      | (_ :: _) as urls => Some (Fallback, urls)
      | [] => None
      end
  end.

Definition printed (content : str) : list str :=
  match extract content with
  | Some (_, urls) => urls
  | None => []
  end.

(* ================================================================== *)
(** * Effects: exceptions, events, and a state-and-exception monad *)
(* ================================================================== *)

(** The exceptions the script tells apart.  [OtherError] is any other
    subclass of [Exception] (an [OSError] of a failed fork or write, a
    [PermissionError]); [KeyboardInterrupt] is not an [Exception]. *)
Inductive exn : Type :=
| CalledProcessError
| FileNotFoundError
| OtherError
| KeyboardInterrupt.

(** [except Exception] *)
Definition is_Exception (e : exn) : bool :=
  match e with
  | KeyboardInterrupt => false
  | _ => true
  end.

(** [except subprocess.CalledProcessError] *)
Definition is_CalledProcessError (e : exn) : bool :=
  match e with
  | CalledProcessError => true
  | _ => false
  end.

(** [except (subprocess.CalledProcessError, FileNotFoundError)] *)
Definition is_process_or_not_found (e : exn) : bool :=
  match e with
  | CalledProcessError | FileNotFoundError => true
  | _ => false
  end.

(** [except KeyboardInterrupt] *)
Definition is_KeyboardInterrupt (e : exn) : bool :=
  match e with
  | KeyboardInterrupt => true
  | _ => false
  end.

Inductive level : Type := INFO | WARNING | ERROR.

(** A command handed to [subprocess.run] or [os.system]: an argument
    vector, or a command line for the shell. *)
Inductive command : Type :=
| Argv (args : list string)
| Shell (cmdline : string).

(** A value interpolated into a log line. *)
Inductive value : Type :=
| VInt (n : Z)
| VText (s : string)
| VStr (s : str)
| VList (l : list str)
| VExn (e : exn).

(** What a run does to the outside, in order.  A log line keeps the
    text of the script's f-string and the values put into it. *)
Inductive event : Type :=
| Log (lvl : level) (fmt : string) (args : list value)
| Print (line : str)
| Sleep (seconds : N)
| Run (c : command)
| WriteFile (file : string) (data : string)
| Start (target : string)
| Join (target : string).

Module Eff.
Section Monad.
Variable S : Type.

(** A computation reads and updates the state and either returns a
    value or raises; the state reached before a raise is kept. *)
Definition M (A : Type) : Type := S -> (exn + A) * S.

Definition ret {A} (a : A) : M A := fun s => (inr a, s).

Definition raise {A} (e : exn) : M A := fun s => (inl e, s).

Definition bind {A B} (m : M A) (f : A -> M B) : M B :=
  fun s =>
    match m s with
    | (inr a, s') => f a s'
    | (inl e, s') => (inl e, s')
    end.

(** [try: body / except <handles>: handler] *)
Definition try_except {A} (body : M A) (handles : exn -> bool)
           (handler : exn -> M A) : M A :=
  fun s =>
    match body s with
    | (inl e, s') => if handles e then handler e s' else (inl e, s')
    | ok => ok
    end.

(** [try: body / finally: final]: [final] runs on every way out of
    [body]; what [body] returned or raised is kept unless [final]
    itself raises. *)
Definition try_finally {A} (body : M A) (final : M unit) : M A :=
  fun s =>
    match body s with
    | (r, s') =>
        match final s' with
        | (inl e, s'') => (inl e, s'')
        | (inr _, s'') => (r, s'')
        end
    end.

Definition modify (f : S -> S) : M unit := fun s => (inr tt, f s).
End Monad.
End Eff.

Import Eff.

Declare Scope eff_scope.
Delimit Scope eff_scope with eff.
Notation "x <- m ;; k" := (bind m (fun x => k))
  (at level 61, m at next level, right associativity) : eff_scope.
Notation "m ;; k" := (bind m (fun _ => k))
  (at level 61, right associativity) : eff_scope.

Local Open Scope string_scope.

Definition cache_dir : string := ".cache".

(** [cache_dir / name] *)
Definition in_cache (name : string) : string := cache_dir ++ "/" ++ name.

Definition output_file : string := in_cache "pigy.txt".

(** The value of an [int] inside an f-string. *)
Definition show_int (n : Z) : string := NilZero.string_of_int (Z.to_int n).

(** The double quote and the line feed, which a literal cannot hold. *)
Definition dq : string := String (ascii_of_nat 34) EmptyString.
Definition nl : string := String (ascii_of_nat 10) EmptyString.

(* ================================================================== *)
(** * [pingy_in]: the authentication strategy selector *)
(* ================================================================== *)

Definition snoc (ev : event) (t : list event) : list event := t ++ [ev].

(** [logging.info], [logging.warning], [logging.error] *)
Definition log (lvl : level) (fmt : string) (args : list value)
  : M (list event) unit :=
  modify (snoc (Log lvl fmt args)).

(** The forwarding part shared by the four commands. *)
Definition ssh_forward (local_port : Z) (host : string) : string :=
  "ssh -o StrictHostKeyChecking=no -p 80 -R0:localhost:" ++
  show_int local_port ++ " " ++ host.

Definition sshpass_command (local_port : Z) : string :=
  "sshpass -p " ++ dq ++ "0000" ++ dq ++ " " ++
  ssh_forward local_port "auth@a.pinggy.io" ++ " > " ++ output_file.

Definition expect_script (local_port : Z) : string :=
  nl ++ "spawn " ++ ssh_forward local_port "auth@a.pinggy.io" ++ nl ++
  "expect " ++ dq ++ "password:" ++ dq ++ nl ++
  "send " ++ dq ++ "0000\r" ++ dq ++ nl ++
  "expect eof" ++ nl.

Definition expect_command : string :=
  "expect " ++ in_cache "expect_script.exp" ++ " > " ++ output_file.

Definition pipe_command (local_port : Z) : string :=
  "echo " ++ dq ++ "0000" ++ dq ++ " | " ++
  ssh_forward local_port "auth@a.pinggy.io" ++ " > " ++ output_file.

Definition noauth_command (local_port : Z) : string :=
  ssh_forward local_port "a.pinggy.io" ++ " > " ++ output_file.

(** What the system answers to the selector: how each command handed to
    [subprocess.run] ends ([None]: it ran and exited with status 0; with
    [check=True] any other exit raises [CalledProcessError], a missing
    executable raises [FileNotFoundError]), and how writing a file
    ends. *)
Record auth_world : Type := {
  proc : command -> option exn;
  write : string -> option exn
}.

Section Selector.
Variable w : auth_world.

Local Open Scope eff_scope.

(** [subprocess.run(c, check=True)] *)
Definition subprocess_run (c : command) : M (list event) unit :=
  fun t =>
    match proc w c with
    | None => (inr tt, snoc (Run c) t)
    | Some e => (inl e, snoc (Run c) t)
    end.

(** [with open(file, 'w') as f: f.write(data)] *)
Definition write_text (file data : string) : M (list event) unit :=
  fun t =>
    match write w file with
    | None => (inr tt, snoc (WriteFile file data) t)
    | Some e => (inl e, t)
    end.

(** Method 1: sshpass, if available.  The result tells whether the
    [return] of the method was reached. *)
Definition method1 (local_port : Z) : M (list event) bool :=
  try_except
    (subprocess_run (Argv ["which"; "sshpass"]) ;;
     log INFO "Using sshpass for authentication" [] ;;
     subprocess_run (Shell (sshpass_command local_port)) ;;
     ret true)
    is_process_or_not_found
    (fun _ =>
       log INFO "sshpass not available, trying alternative methods" [] ;;
       ret false).

(** Method 2: expect, if available. *)
Definition method2 (local_port : Z) : M (list event) bool :=
  try_except
    (subprocess_run (Argv ["which"; "expect"]) ;;
     log INFO "Using expect for authentication" [] ;;
     write_text (in_cache "expect_script.exp") (expect_script local_port) ;;
     subprocess_run (Shell expect_command) ;;
     ret true)
    is_process_or_not_found
    (fun _ =>
       log INFO "expect not available, trying pipe method" [] ;;
       ret false).

(** Method 3: echo pipe. *)
Definition method3 (local_port : Z) : M (list event) bool :=
  try_except
    (log INFO "Using echo pipe for authentication" [] ;;
     subprocess_run (Shell (pipe_command local_port)) ;;
     ret true)
    is_CalledProcessError
    (fun e =>
       log ERROR "Echo pipe method failed: {e}" [VExn e] ;;
       ret false).

(** Method 4: the original method, no auth. *)
Definition method4 (local_port : Z) : M (list event) unit :=
  try_except
    (log INFO "Trying without auth keyword as fallback..." [] ;;
     subprocess_run (Shell (noauth_command local_port)))
    is_Exception
    (fun e =>
       if is_CalledProcessError e
       then log ERROR "All methods failed: {e}" [VExn e]
       else log ERROR "Unexpected error establishing SSH tunnel: {e}"
                [VExn e]).

Definition pingy_in (local_port : Z) : M (list event) unit :=
  log INFO
    "Starting SSH tunnel on port 80 and forwarding to localhost:{local_port}..."
    [VInt local_port] ;;
  returned <- method1 local_port ;;
  if returned : bool then ret tt else
  returned <- method2 local_port ;;
  if returned : bool then ret tt else
  returned <- method3 local_port ;;
  if returned : bool then ret tt else
  method4 local_port.
End Selector.

(** The commands a run handed to [subprocess.run], in order. *)
Definition commands (t : list event) : list command :=
  flat_map (fun ev => match ev with Run c => [c] | _ => [] end) t.

(** The run of the selector from an empty trace. *)
Definition run_pingy_in (w : auth_world) (local_port : Z)
  : (exn + unit) * list event :=
  pingy_in w local_port [].

(* ================================================================== *)
(** * [webui]: the user's application *)
(* ================================================================== *)

(** [webui(command)]: the user's command, run through the shell; a
    process error and any other [Exception] are logged, not raised. *)
Definition webui (w : auth_world) (command : string) : M (list event) unit :=
  bind (log INFO "Starting webui with command: {command}" [VText command])
       (fun _ =>
  try_except
    (subprocess_run w (Shell command))
    is_Exception
    (fun e =>
       if is_CalledProcessError e
       then log ERROR "Error starting webui: {e}" [VExn e]
       else log ERROR "Unexpected error starting webui: {e}" [VExn e])).

(* ================================================================== *)
(** * [pingy_out]: the polling loop *)
(* ================================================================== *)

Local Close Scope string_scope.

(** What [open(output_file, 'r')] and [file.read()] give at one poll. *)
Inductive read_result : Type :=
| Content (content : str)
| Failed (e : exn).           (* the open or the read raised *)

(** The lines printed when URLs were found: the heading, a line for
    each URL, an empty line. *)
Definition url_block (urls : list str) : list str :=
  (lit nl ++ lit "Tunnel URLs:") :: map (fun url => lit "  " ++ url) urls ++ [[]].

(** [print] line after line.  [out k] is what the [k]-th [print] of the
    poll raises, if it raises: the lines before it are printed, the
    others are not. *)
Fixpoint print_lines (out : nat -> option exn) (k : nat) (lines : list str)
  : list event * option exn :=
  match lines with
  | [] => ([], None)
  | line :: rest =>
      match out k with
      | Some e => ([], Some e)
      | None =>
          let (evs, r) := print_lines out (S k) rest in
          (Print line :: evs, r)
      end
  end.

(** The two [except] clauses of the loop: what they catch is logged and
    the loop goes on; what neither catches leaves the poll. *)
Definition caught (e : exn) : list event * (exn + bool) :=
  match e with
  | FileNotFoundError =>
      ([Log WARNING "File not found: {output_file}" [VText output_file]],
       inr false)
  | _ =>
      if is_Exception e
      then ([Log ERROR "Unexpected error reading file: {e}" [VExn e]],
            inr false)
      else ([], inl e)
  end.

(** The lines of [if unique_urls:] and of [if tunnel_urls:]: the log
    line, the prints, the [return].  The prints stand inside the [try],
    so an error of a [print] goes to the [except] clauses. *)
Definition announce (out : nat -> option exn) (fmt : string) (urls : list str)
  : list event * (exn + bool) :=
  match print_lines out 0 (url_block urls) with
  | (evs, None) => (Log INFO fmt [VList urls] :: evs, inr true)
  | (evs, Some e) =>
      let (handled, r) := caught e in
      (Log INFO fmt [VList urls] :: evs ++ handled, r)
  end.

(** The body of the [while] loop after the sleep: the events of one
    poll, and whether its [return] was reached; an exception that
    neither [except] clause catches leaves the poll.  [r] is what the
    read gives, [out] what the prints of this poll raise. *)
Definition poll (r : read_result) (out : nat -> option exn)
  : list event * (exn + bool) :=
  match r with
  | Content content =>
      let cleaned_content := clean content in
      let seen :=
        [Log INFO "Raw file content length: {len(content)}"
             [VInt (Z.of_nat (length content))];
         Log INFO "Cleaned content: {cleaned_content}" [VStr cleaned_content]] in
      match unique_urls cleaned_content with
      | (_ :: _) as urls =>
          let (evs, res) := announce out "Found tunnel URLs: {unique_urls}" urls in
          (seen ++ evs, res)
      | [] =>
          match tunnel_urls cleaned_content with
          | (_ :: _) as urls =>
              let (evs, res) :=
                announce out "Found URLs (fallback): {tunnel_urls}" urls in
              (seen ++ evs, res)
          | [] => (seen, inr false)
          end
      end
  | Failed e => caught e
  end.

Definition timeout_events : list event :=
  [Log ERROR "Timeout reached, URL not found." [];
   Print (lit nl ++ lit "Timeout reached, URL not found." ++ lit nl)].

(** The URLs among the printed lines: the lines of the form
    [print(f'  {url}')]. *)
Definition printed_urls (t : list event) : list str :=
  flat_map (fun ev =>
              match ev with
              | Print (32 :: 32 :: url) => [url]
              | _ => []
              end) t.

(** How the scraper ended: the state machine of the polling loop. *)
Inductive scrape : Type := FOUND | TIMED_OUT.

(** The clock, the sink and the standard output as the scraper meets
    them: the [i]-th poll reads [sink i], its [k]-th [print] raises
    [stdout i k] when that is an exception, and it takes [lag i] clock
    ticks beyond its sleep.  [hz] is the number of clock ticks per time
    unit.  The [print] of the timeout message stands outside the [try]
    and after the loop; it is taken to go through. *)
Record sink_world : Type := {
  hz : N;
  sink : nat -> read_result;
  stdout : nat -> nat -> option exn;
  lag : nat -> N
}.

Section Scraper.
Variable w : sink_world.
Variable timeout : N.

(** The [while] loop of [pingy_out(local_port, timeout)], which does
    not use [local_port]; [elapsed] is [time.time() - start_time] in
    ticks when the condition is tested.  [None]: out of fuel. *)
Fixpoint pingy_out_loop (fuel i : nat) (elapsed : N)
  : option (list event * (exn + scrape)) :=
  if elapsed <? timeout * hz w then
    match fuel with
    | O => None
    | S fuel' =>
        let head := [Sleep 2; Log INFO "Checking for URL..." []] in
        match poll (sink w i) (stdout w i) with
        | (evs, inr true) => Some (head ++ evs, inr FOUND)
        | (evs, inl e) => Some (head ++ evs, inl e)
        | (evs, inr false) =>
            match pingy_out_loop fuel' (S i) (elapsed + 2 * hz w + lag w i) with
            | Some (rest, r) => Some (head ++ evs ++ rest, r)
            | None => None
            end
        end
    end
  else Some (timeout_events, inr TIMED_OUT).

(** Every turn takes at least two time units, so [timeout] turns and
    one more test of the condition are enough. *)
Definition pingy_out : option (list event * (exn + scrape)) :=
  pingy_out_loop (S (N.to_nat timeout)) 0 0.
End Scraper.

(** [def pingy_out(local_port, timeout=30)] *)
Definition default_timeout : N := 30.

(* ================================================================== *)
(** * [runn]: the coordinator *)
(* ================================================================== *)

(** The coordinator's view: the files that exist, what it did, and the
    children it has started and not yet joined to their end. *)
Record coord_state : Type := {
  files : list string;
  trace : list event;
  running : list string
}.

(** [path] itself or something below it. *)
Definition at_or_below (path f : string) : bool :=
  String.eqb f path || prefix (path ++ "/")%string f.

(** [rm -rf path], when it succeeds: neither the path nor anything
    below it exists afterwards. *)
Definition rm_rf (path : string) (fs : list string) : list string :=
  filter (fun f => negb (at_or_below path f)) fs.

(** What a command line does to the files when it succeeds: only
    [rm -rf <path>] is interpreted. *)
Definition shell_effect (cmdline : string) (fs : list string) : list string :=
  if prefix "rm -rf " cmdline
  then rm_rf (substring 7 (String.length cmdline - 7) cmdline) fs
  else fs.

(** What happens around the coordinator.  While it is in a step
    (starting or joining a child, logging, printing, running a
    command), the children that are running change the files
    ([during]), and the step ends normally or raises ([ending]): a
    [KeyboardInterrupt] from the user, or an error of the process
    machinery or of the output.  A command run through [os.system] ends
    with the exit status [status t], where [t] is what the coordinator
    did before it.  The children still running when the coordinator
    returns go on changing the files ([afterwards]). *)
Record coord_world : Type := {
  during : event -> list string -> list string;
  ending : event -> option exn;
  status : list event -> Z;
  afterwards : list string -> list string
}.

Section Coordinator.
Variable w : coord_world.

Local Open Scope eff_scope.

(** The files after the children at work have acted during [ev]. *)
Definition meanwhile (children : list string) (ev : event) (fs : list string)
  : list string :=
  match children with
  | [] => fs
  | _ :: _ => during w ev fs
  end.

(** [os.system(cmdline)]: the command has its effect when it exits with
    status 0; the status is ignored and nothing is raised. *)
Definition os_system (cmdline : string) : M coord_state unit :=
  fun s =>
    let fs := if (status w (trace s) =? 0)%Z
              then shell_effect cmdline (files s)
              else files s in
    (inr tt,
     {| files := meanwhile (running s) (Run (Shell cmdline)) fs;
        trace := trace s ++ [Run (Shell cmdline)];
        running := running s |}).

(** One step of the coordinator.  [p.start()] sets a child running;
    [p.join()] returns when the child has ended, unless it raises. *)
Definition step (ev : event) : M coord_state unit :=
  fun s =>
    let children :=
      match ev with
      | Start name => running s ++ [name]
      | _ => running s
      end in
    let fs := meanwhile children ev (files s) in
    let t := trace s ++ [ev] in
    match ending w ev with
    | None =>
        (inr tt,
         {| files := fs; trace := t;
            running := match ev with
                       | Join name => remove string_dec name children
                       | _ => children
                       end |})
    | Some e => (inl e, {| files := fs; trace := t; running := children |})
    end.

Definition remove_sink : string := ("rm -rf " ++ in_cache "pigy.txt")%string.

Definition runn : M coord_state unit :=
  try_finally
    (try_except
       (step (Start "webui") ;;
        step (Start "pingy_in") ;;
        step (Start "pingy_out") ;;
        step (Join "webui") ;;
        step (Join "pingy_in") ;;
        step (Join "pingy_out"))
       is_KeyboardInterrupt
       (fun _ =>
          step (Log INFO "^C" []) ;;
          step (Print (lit "^C")) ;;
          os_system remove_sink))
    (os_system remove_sink).
End Coordinator.

(** The files once the coordinator has returned and the children it
    left running have done their work. *)
Definition after_return (w : coord_world) (s : coord_state) : list string :=
  match running s with
  | [] => files s
  | _ :: _ => afterwards w (files s)
  end.

(* ================================================================== *)
(** * The vocabulary of the properties *)
(* ================================================================== *)

(** The strings a pattern denotes. *)
Fixpoint lang (r : regex) (m : str) : Prop :=
  match r with
  | Eps => m = []
  | Chr c => m = [c]
  | Cls p => exists c, m = [c] /\ p c = true
  | Cat r1 r2 => exists m1 m2, m = m1 ++ m2 /\ lang r1 m1 /\ lang r2 m2
  | Alt r1 r2 => lang r1 m \/ lang r2 m
  | Opt r1 => m = [] \/ lang r1 m
  | Star p => forallb p m = true
  | Plus p => m <> [] /\ forallb p m = true
  end.

(** The strings of [us] lie in [s] one after the other, without
    overlap. *)
Fixpoint in_order (us : list str) (s : str) : Prop :=
  match us with
  | [] => True
  | u :: us' => exists pre post, s = pre ++ u ++ post /\ in_order us' post
  end.

Inductive tier : Type := Free | Pro | Legacy.

(** The tier of a URL, by the pattern of [tunnel_patterns] it matches
    in full. *)
Definition tier_of (u : str) : option tier :=
  if fullmatch free_pattern u then Some Free
  else if fullmatch pro_pattern u then Some Pro
  else if fullmatch legacy_pattern u then Some Legacy
  else None.

(** [u] occurs in [s] as a substring. *)
Definition occurs (u s : str) : Prop :=
  exists pre post, s = pre ++ u ++ post.

(** The text after a label starts with a character no label holds. *)
Definition ends_label (t : str) : Prop :=
  match t with
  | c :: _ => is_label c = false
  | [] => True
  end.

(** The dashboard test of both paths: ['dashboard.pinggy.io' not in
    url]. *)
Definition keeps (url : str) : bool := negb (contains dashboard url).

(** The de-duplication in the words of the specification: every URL
    at the place where it is first seen. *)
Fixpoint first_seen (l : list str) : list str :=
  match l with
  | [] => []
  | x :: l' => x :: remove str_eq_dec x (first_seen l')
  end.

(** [x not in acc] *)
Definition unseen (acc : list str) (x : str) : bool :=
  if in_dec str_eq_dec x acc then false else true.

(** Text without the control characters the second [sub] removes (the
    escape character is one of them). *)
Definition clean_text (s : str) : Prop :=
  forallb (fun c => negb (is_control c)) s = true.

(** The matches a path filters: [found_urls] on the prioritized path,
    [all_urls] on the fallback path. *)
Definition matched (p : path) (cleaned_content : str) : list str :=
  match p with
  | Prioritized => found_urls cleaned_content
  | Fallback => all_urls cleaned_content
  end.

(** [u] stands before [v] in [l]. *)
Definition before (u v : str) (l : list str) : Prop :=
  exists l1 l2 l3, l = l1 ++ u :: l2 ++ v :: l3.

(** The place of a tier in [tunnel_patterns]. *)
Definition tier_rank (t : tier) : nat :=
  match t with
  | Free => 0
  | Pro => 1
  | Legacy => 2
  end.

(** The text holds a URL that the pattern matches in full. *)
Definition has_url (p : regex) (s : str) : Prop :=
  exists u, fullmatch p u = true /\ occurs u s.

(** The text holds a URL of the dashboard host. *)
Definition has_dashboard_url (s : str) : Prop :=
  occurs (lit "https://dashboard.pinggy.io") s \/
  occurs (lit "http://dashboard.pinggy.io") s.

(** Everything a run printed. *)
Definition prints (t : list event) : list str :=
  flat_map (fun ev => match ev with Print line => [line] | _ => [] end) t.

(** A poll that finds no URL: the content has no match on either path,
    or the sink is missing or unreadable (an [Exception], which the
    poll catches). *)
Definition finds_nothing (r : read_result) : Prop :=
  match r with
  | Content content => extract content = None
  | Failed e => is_Exception e = true
  end.

(** The selector creates the sink while it is started and the children
    leave the files alone otherwise; a step of the coordinator may end
    in [oops]; every [rm] succeeds. *)
Definition sink_created (oops : event -> option exn) : coord_world :=
  {| during := fun ev fs =>
                 match ev with
                 | Start "pingy_in" => output_file :: fs
                 | _ => fs
                 end;
     ending := oops;
     status := fun _ => 0%Z;
     afterwards := fun fs => fs |}.

(** As [sink_created], but the selector is still at work when the
    coordinator returns: its next mechanism redirects its output to the
    sink, which creates the file again. *)
Definition sink_recreated (oops : event -> option exn) : coord_world :=
  {| during := fun ev fs =>
                 match ev with
                 | Start "pingy_in" => output_file :: fs
                 | _ => fs
                 end;
     ending := oops;
     status := fun _ => 0%Z;
     afterwards := fun fs => output_file :: fs |}.

(** As [sink_created], but [rm] fails with status 1. *)
Definition rm_fails (oops : event -> option exn) : coord_world :=
  {| during := fun ev fs =>
                 match ev with
                 | Start "pingy_in" => output_file :: fs
                 | _ => fs
                 end;
     ending := oops;
     status := fun _ => 1%Z;
     afterwards := fun fs => fs |}.

(** The interrupt arrives while the web UI is joined. *)
Definition interrupt_at_join (ev : event) : option exn :=
  match ev with
  | Join "webui" => Some KeyboardInterrupt
  | _ => None
  end.


(** Before the run only the log file exists and no child is running. *)
Definition log_only : coord_state :=
  {| files := [in_cache "pigy.log"]; trace := []; running := [] |}.

(** The capability probe of a helper: [['which', tool]]. *)
Definition probe (tool : string) : command := Argv ["which"; tool]%string.

(** The tunnel commands of the four mechanisms, in priority order. *)
Definition mechanisms (local_port : Z) : list command :=
  [Shell (sshpass_command local_port);
   Shell expect_command;
   Shell (pipe_command local_port);
   Shell (noauth_command local_port)].

(** Every command the selector can run, in the order of the script. *)
Definition schedule (local_port : Z) : list command :=
  [probe "sshpass"; Shell (sshpass_command local_port);
   probe "expect"; Shell expect_command;
   Shell (pipe_command local_port);
   Shell (noauth_command local_port)].

(** [l1] is [l2] with some elements left out, the order kept. *)
Inductive subseq {A : Type} : list A -> list A -> Prop :=
| subseq_nil : forall l, subseq [] l
| subseq_take : forall x l1 l2, subseq l1 l2 -> subseq (x :: l1) (x :: l2)
| subseq_skip : forall x l1 l2, subseq l1 l2 -> subseq l1 (x :: l2).

(** No helper is installed and every tunnel command exits with a
    non-zero status. *)
Definition nothing_works : auth_world :=
  {| proc := fun _ => Some CalledProcessError; write := fun _ => None |}.

(** No helper is installed and the fork for the echo pipe fails with an
    [OSError]. *)
Definition fork_fails : auth_world :=
  {| proc := fun c =>
               match c with
               | Argv _ => Some CalledProcessError
               | Shell cmdline =>
                   if prefix "echo" cmdline then Some OtherError else None
               end;
     write := fun _ => None |}.

(** The failures the [except] clauses of the four methods are written
    for: a process error or a missing executable in methods 1 and 2, a
    process error in method 3, any [Exception] in method 4. *)
Definition expected_failures (w : auth_world) (local_port : Z) : Prop :=
  (forall c e,
      In c [probe "sshpass"; Shell (sshpass_command local_port);
            probe "expect"; Shell expect_command] ->
      proc w c = Some e -> is_process_or_not_found e = true) /\
  (forall e, write w (in_cache "expect_script.exp") = Some e ->
             is_process_or_not_found e = true) /\
  (forall e, proc w (Shell (pipe_command local_port)) = Some e ->
             is_CalledProcessError e = true) /\
  (forall e, proc w (Shell (noauth_command local_port)) = Some e ->
             is_Exception e = true).

(** What the system answered to a step: it went well, or it failed in
    a way the [except] clause of methods 1 and 2 catches (a process
    error or a missing executable), or in the way the clause of method
    3 catches (a process error). *)
Definition went_well (o : option exn) : bool :=
  match o with
  | None => true
  | Some _ => false
  end.

Definition caught12 (o : option exn) : bool :=
  match o with
  | Some e => is_process_or_not_found e
  | None => false
  end.

Definition caught3 (o : option exn) : bool :=
  match o with
  | Some e => is_CalledProcessError e
  | None => false
  end.

(** Method 1 ends in its [except] clause: the probe for sshpass, or
    after a good probe the sshpass command, failed in a way the clause
    catches. *)
Definition method1_falls_through (w : auth_world) (local_port : Z) : bool :=
  caught12 (proc w (probe "sshpass")) ||
  went_well (proc w (probe "sshpass")) &&
  caught12 (proc w (Shell (sshpass_command local_port))).

(** Method 2 ends in its [except] clause: the probe for expect, the
    write of the script or the expect command failed in a way the
    clause catches, the steps before having gone well. *)
Definition method2_falls_through (w : auth_world) : bool :=
  caught12 (proc w (probe "expect")) ||
  went_well (proc w (probe "expect")) &&
  (caught12 (write w (in_cache "expect_script.exp")) ||
   went_well (write w (in_cache "expect_script.exp")) &&
   caught12 (proc w (Shell expect_command))).

(** Method 3 ends in its [except] clause. *)
Definition method3_falls_through (w : auth_world) (local_port : Z) : bool :=
  caught3 (proc w (Shell (pipe_command local_port))).

(** A character that cleaning never removes: no control character of the
    second pattern and no printable ASCII character (of which the escape
    sequences are made).  The line feed, the tab, the carriage return
    and every character beyond ASCII are of this kind. *)
Definition untouched (c : char) : bool :=
  negb (is_control c) && negb (in_range 32 126 c).

(** The number of times a run slept, which is the number of its polls. *)
Definition sleeps (t : list event) : nat :=
  length (filter (fun ev => match ev with Sleep _ => true | _ => false end) t).


(** The standard output takes every line. *)
Definition stdout_works (w : sink_world) : Prop :=
  forall i k, stdout w i k = None.

(** A poll that finds URLs and cannot print them: of the prints of the
    block, the first that raises raises an [Exception]. *)
Definition print_breaks (r : read_result) (out : nat -> option exn) : Prop :=
  match r with
  | Content content =>
      exists p urls k e,
        extract content = Some (p, urls) /\
        (k < length (url_block urls))%nat /\
        out k = Some e /\ is_Exception e = true /\
        forall j, (j < k)%nat -> out j = None
  | Failed _ => False
  end.


(** The steps of the body of [runn], in the order of the script. *)
Definition body_steps : list event :=
  [Start "webui"; Start "pingy_in"; Start "pingy_out";
   Join "webui"; Join "pingy_in"; Join "pingy_out"].

(** What the first step that raises, if any, raises. *)
Fixpoint first_raise (ending : event -> option exn) (steps : list event)
  : option exn :=
  match steps with
  | [] => None
  | ev :: rest =>
      match ending ev with
      | Some e => Some e
      | None => first_raise ending rest
      end
  end.

(** A run of the coordinator with the files [fs], from an empty trace
    and with no child running. *)
Definition run_runn (w : coord_world) (fs : list string)
  : (exn + unit) * coord_state :=
  runn w {| files := fs; trace := []; running := [] |}.

(* ================================================================== *)
(** * The matcher against the language of a pattern *)
(* ================================================================== *)

Module ReFacts.

Section Sound.
Variable A : Type.

Lemma star_sound (p : char -> bool) (s : str) (k : str -> option A) x :
  star p s k = Some x ->
  exists m rest, s = m ++ rest /\ forallb p m = true /\ k rest = Some x.
Proof.
  induction s as [|c s IH]; simpl; intros H.
  - exists [], []. auto.
  - destruct (p c) eqn:Hp.
    + destruct (star p s k) as [y|] eqn:Hs.
      * injection H as <-.
        destruct (IH eq_refl) as (m & rest & -> & Hm & Hk).
        exists (c :: m), rest. simpl. rewrite Hp, Hm. auto.
      * exists [], (c :: s). auto.
    + exists [], (c :: s). auto.
Qed.

Lemma run_sound (r : regex) :
  forall (s : str) (k : str -> option A) x,
    run r s k = Some x ->
    exists m rest, s = m ++ rest /\ lang r m /\ k rest = Some x.
Proof.
  induction r as [|c|p|r1 IH1 r2 IH2|r1 IH1 r2 IH2|r1 IH1|p|p];
    simpl; intros s k x H.
  - exists [], s. auto.
  - destruct s as [|a s]; [discriminate|].
    destruct (N.eqb_spec a c) as [->|]; [|discriminate].
    exists [c], s. auto.
  - destruct s as [|a s]; [discriminate|].
    destruct (p a) eqn:Hp; [|discriminate].
    exists [a], s. eauto.
  - apply IH1 in H. destruct H as (m1 & rest1 & -> & L1 & H).
    apply IH2 in H. destruct H as (m2 & rest & -> & L2 & H).
    exists (m1 ++ m2), rest. rewrite <- app_assoc. eauto 7.
  - destruct (run r1 s k) as [y|] eqn:H1.
    + injection H as <-. apply IH1 in H1.
      destruct H1 as (m & rest & -> & L & Hk). eauto 7.
    + apply IH2 in H. destruct H as (m & rest & -> & L & Hk). eauto 7.
  - destruct (run r1 s k) as [y|] eqn:H1.
    + injection H as <-. apply IH1 in H1.
      destruct H1 as (m & rest & -> & L & Hk). eauto 7.
    + exists [], s. auto.
  - apply star_sound in H. exact H.
  - destruct s as [|a s]; [discriminate|].
    destruct (p a) eqn:Hp; [|discriminate].
    apply star_sound in H. destruct H as (m & rest & -> & Hm & Hk).
    exists (a :: m), rest. simpl. rewrite Hp, Hm.
    repeat split; auto. discriminate.
Qed.

(** The matcher finds a match whenever there is one to find: if a
    prefix of the input is in the language and the continuation
    accepts what follows it, the run succeeds (maybe with another
    prefix, tried earlier). *)
Lemma star_complete (p : char -> bool) (m rest : str)
      (k : str -> option A) x :
  forallb p m = true -> k rest = Some x ->
  exists y, star p (m ++ rest) k = Some y.
Proof.
  induction m as [|c m IH]; simpl; intros Hm Hk.
  - destruct rest as [|c rest]; simpl; [eauto|].
    destruct (p c); [|eauto].
    destruct (star p rest k); eauto.
  - apply andb_prop in Hm. destruct Hm as [Hc Hm]. rewrite Hc.
    destruct (IH Hm Hk) as [y ->]. eauto.
Qed.

Lemma run_complete (r : regex) :
  forall (m rest : str) (k : str -> option A) x,
    lang r m -> k rest = Some x ->
    exists y, run r (m ++ rest) k = Some y.
Proof.
  induction r as [|c|p|r1 IH1 r2 IH2|r1 IH1 r2 IH2|r1 IH1|p|p];
    simpl; intros m rest k x L Hk.
  - subst m. simpl. eauto.
  - subst m. simpl. rewrite N.eqb_refl. eauto.
  - destruct L as (c & -> & Hp). simpl. rewrite Hp. eauto.
  - destruct L as (m1 & m2 & -> & L1 & L2).
    rewrite <- app_assoc.
    destruct (IH2 m2 rest k x L2 Hk) as [y Hy].
    apply (IH1 m1 (m2 ++ rest) _ y L1 Hy).
  - destruct (run r1 (m ++ rest) k) as [y|] eqn:H1; [eauto|].
    destruct L as [L|L].
    + destruct (IH1 m rest k x L Hk) as [y Hy]. congruence.
    + apply (IH2 m rest k x L Hk).
  - destruct (run r1 (m ++ rest) k) as [y|] eqn:H1; [eauto|].
    destruct L as [->|L].
    + simpl. eauto.
    + destruct (IH1 m rest k x L Hk) as [y Hy]. congruence.
  - apply star_complete with (x := x); assumption.
  - destruct L as [Hne Hm]. destruct m as [|c m]; [congruence|].
    simpl in *. apply andb_prop in Hm. destruct Hm as [Hc Hm].
    rewrite Hc. apply star_complete with (x := x); assumption.
Qed.
End Sound.

(** [match_len] returns the length of a prefix in the language. *)
Lemma match_len_sound (r : regex) (s : str) (n : nat) :
  match_len r s = Some n ->
  exists rest, s = firstn n s ++ rest /\ lang r (firstn n s) /\
               length (firstn n s) = n.
Proof.
  unfold match_len. intros H.
  destruct (run r s (fun rest => Some rest)) as [rest|] eqn:Hr; [|discriminate].
  injection H as <-.
  apply run_sound in Hr. destruct Hr as (m & rest' & -> & L & Hk).
  injection Hk as ->.
  rewrite length_app, Nat.add_sub.
  rewrite firstn_app, Nat.sub_diag, firstn_all. simpl. rewrite app_nil_r.
  exists rest. auto.
Qed.

Lemma match_len_complete (r : regex) (m rest : str) :
  lang r m -> exists n, match_len r (m ++ rest) = Some n.
Proof.
  intros L. unfold match_len.
  destruct (run_complete r m rest (fun rest => Some rest) L eq_refl) as [y ->].
  eauto.
Qed.

Lemma fullmatch_lang (r : regex) (m : str) :
  fullmatch r m = true <-> lang r m.
Proof.
  unfold fullmatch. split.
  - destruct (run r m _) as [[]|] eqn:Hr; [|discriminate]. intros _.
    apply run_sound in Hr. destruct Hr as (m' & rest & -> & L & Hk).
    destruct rest; [|discriminate]. rewrite app_nil_r. exact L.
  - intros L.
    destruct (run_complete r m []
                (fun rest => match rest with [] => Some tt | _ => None end)
                L eq_refl) as [y Hy].
    rewrite app_nil_r in Hy. rewrite Hy. reflexivity.
Qed.

(** Every string [findall] returns is a match of the pattern, cut out
    of the scanned text. *)
Lemma findall_from_lang (r : regex) (s : str) :
  forall skip u, In u (findall_from r skip s) ->
            lang r u /\ exists pre post, s = pre ++ u ++ post.
Proof.
  induction s as [|c s IH]; simpl; intros skip u H.
  - destruct skip; [|contradiction].
    destruct (match_len r []) as [n|] eqn:Hm; [|contradiction].
    destruct H as [<-|[]].
    apply match_len_sound in Hm. destruct Hm as (rest & _ & L & _).
    rewrite firstn_nil in L. split; [exact L|]. exists [], []. reflexivity.
  - assert (Htail : forall k, In u (findall_from r k s) ->
              lang r u /\ exists pre post, c :: s = pre ++ u ++ post).
    { intros k Hk. destruct (IH k u Hk) as (L & pre & post & E).
      split; [exact L|]. exists (c :: pre), post. rewrite E. reflexivity. }
    destruct skip as [|k]; [|eauto].
    destruct (match_len r (c :: s)) as [[|n]|] eqn:Hm; [| |eauto].
    + destruct H as [<-|H]; [|eauto].
      apply match_len_sound in Hm. destruct Hm as (rest & _ & L & _).
      split; [exact L|]. exists [], (c :: s). reflexivity.
    + destruct H as [<-|H]; [|eauto].
      apply match_len_sound in Hm. destruct Hm as (rest & E & L & _).
      split; [exact L|]. exists [], rest. exact E.
Qed.

Lemma findall_lang (r : regex) (s : str) (u : str) :
  In u (findall r s) -> lang r u /\ exists pre post, s = pre ++ u ++ post.
Proof. apply findall_from_lang. Qed.

(** [findall] returns something as soon as the text contains a match. *)
Lemma findall_nonempty (r : regex) (pre u post : str) :
  lang r u -> findall r (pre ++ u ++ post) <> [].
Proof.
  intros L. unfold findall.
  induction pre as [|c pre IH]; simpl.
  - destruct (match_len_complete r u post L) as [n Hn].
    destruct (u ++ post) as [|c t]; simpl.
    + rewrite Hn. discriminate.
    + rewrite Hn. destruct n; discriminate.
  - destruct (match_len r (c :: pre ++ u ++ post)) as [[|n]|];
      [discriminate|discriminate|exact IH].
Qed.

Lemma in_order_cons (us : list str) (c : char) (s : str) :
  in_order us s -> in_order us (c :: s).
Proof.
  destruct us as [|u us]; simpl; [auto|].
  intros (pre & post & -> & H). exists (c :: pre), post. auto.
Qed.

(** [findall] lists the matches in the order of the text. *)
Lemma findall_from_in_order (r : regex) (s : str) :
  forall skip, in_order (findall_from r skip s) (skipn skip s).
Proof.
  induction s as [|c s IH]; intros skip.
  - destruct skip as [|k]; simpl; [|exact I].
    destruct (match_len r []); simpl; [|exact I].
    exists [], []. split; [reflexivity|exact I].
  - destruct skip as [|k]; [|apply IH].
    simpl findall_from. simpl skipn.
    destruct (match_len r (c :: s)) as [[|n]|] eqn:Hm.
    + exists [c], s. split; [reflexivity|]. apply (IH 0%nat).
    + exists [], (skipn n s). split.
      * simpl. f_equal. symmetry. apply firstn_skipn.
      * apply IH.
    + apply in_order_cons. apply (IH 0%nat).
Qed.

Lemma findall_in_order (r : regex) (s : str) : in_order (findall r s) s.
Proof. apply (findall_from_in_order r s 0). Qed.

End ReFacts.

Import ReFacts.

(* ================================================================== *)
(** * The shape of a tunnel URL *)
(* ================================================================== *)

Lemma starts_with_spec (p s : str) :
  starts_with p s = true <-> exists rest, s = p ++ rest.
Proof.
  revert s. induction p as [|a p IH]; intros s; simpl.
  - split; eauto.
  - destruct s as [|b s].
    + split; [discriminate|]. intros [rest H]. discriminate.
    + rewrite andb_true_iff, N.eqb_eq, IH. split.
      * intros [-> [rest ->]]. eauto.
      * intros [rest H]. injection H as -> ->. eauto.
Qed.

(** [needle in hay] is the substring test. *)
Lemma contains_spec (needle hay : str) :
  contains needle hay = true <-> occurs needle hay.
Proof.
  unfold occurs. induction hay as [|c hay IH].
  - simpl. rewrite orb_false_r, starts_with_spec. split.
    + intros [rest H]. exists [], rest. exact H.
    + intros (pre & post & H). destruct pre; [eauto|discriminate].
  - change (contains needle (c :: hay))
      with (starts_with needle (c :: hay) || contains needle hay).
    rewrite orb_true_iff, starts_with_spec, IH. split.
    + intros [[rest H]|(pre & post & H)].
      * exists [], rest. exact H.
      * exists (c :: pre), post. rewrite H. reflexivity.
    + intros (pre & post & H). destruct pre as [|a pre].
      * left. eauto.
      * right. injection H as _ H. eauto.
Qed.

Lemma lang_text (s m : str) : lang (text s) m <-> m = s.
Proof.
  revert m. induction s as [|c s IH]; intros m; simpl; [tauto|].
  split.
  - intros (m1 & m2 & -> & -> & L). apply IH in L. subst. reflexivity.
  - intros ->. exists [c], s. rewrite IH. auto.
Qed.

Lemma lang_scheme (m : str) :
  lang scheme m <-> m = lit "http://" \/ m = lit "https://".
Proof.
  unfold scheme. simpl lang. split.
  - intros (m1 & m2 & -> & L1 & m3 & m4 & -> & L3 & L4).
    apply (lang_text (lit "http")) in L1.
    apply (lang_text (lit "://")) in L4. subst m1 m4.
    destruct L3 as [->| ->]; auto.
  - intros [->| ->].
    + exists (lit "http"), (lit "://"). repeat split.
      * apply (lang_text (lit "http")). reflexivity.
      * exists [], (lit "://"). repeat split; auto.
        apply (lang_text (lit "://")). reflexivity.
    + exists (lit "http"), (lit "s://"). repeat split.
      * apply (lang_text (lit "http")). reflexivity.
      * exists [ch "s"], (lit "://"). repeat split; auto.
        apply (lang_text (lit "://")). reflexivity.
Qed.

(** A match of a tunnel pattern: scheme, a non-empty label, the
    suffix. *)
Lemma lang_tunnel (suffix : string) (u : str) :
  lang (tunnel_pattern suffix) u <->
  exists sch l,
    (sch = lit "http://" \/ sch = lit "https://") /\
    l <> [] /\ forallb is_label l = true /\
    u = sch ++ l ++ lit suffix.
Proof.
  unfold tunnel_pattern.
  change (lang (Cat scheme (Cat (Plus is_label) (text (lit suffix)))) u)
    with (exists m1 m2, u = m1 ++ m2 /\ lang scheme m1 /\
          exists m3 m4, m2 = m3 ++ m4 /\
                        (m3 <> [] /\ forallb is_label m3 = true) /\
                        lang (text (lit suffix)) m4).
  split.
  - intros (m1 & m2 & -> & L1 & m3 & m4 & -> & [Hne Hl] & L4).
    apply lang_scheme in L1. apply lang_text in L4. subst m4.
    exists m1, m3. auto.
  - intros (sch & l & Hs & Hne & Hl & ->).
    exists sch, (l ++ lit suffix). repeat split.
    + apply lang_scheme. exact Hs.
    + exists l, (lit suffix). repeat split; auto.
      apply lang_text. reflexivity.
Qed.

Lemma label_split (l1 : str) :
  forall l2 t1 t2,
    forallb is_label l1 = true -> forallb is_label l2 = true ->
    ends_label t1 -> ends_label t2 ->
    l1 ++ t1 = l2 ++ t2 -> l1 = l2 /\ t1 = t2.
Proof.
  induction l1 as [|a l1 IH]; intros [|b l2] t1 t2 H1 H2 E1 E2 H;
    simpl in *.
  - auto.
  - subst t1. simpl in E1. apply andb_prop in H2. destruct H2. congruence.
  - subst t2. simpl in E2. apply andb_prop in H1. destruct H1. congruence.
  - injection H as -> H.
    apply andb_prop in H1. apply andb_prop in H2.
    destruct (IH l2 t1 t2) as [-> ->]; tauto.
Qed.

(** No pattern of the script matches the empty string, so every match
    [findall] and [sub] meet moves the scan on. *)
Lemma script_patterns_not_empty (r : regex) (s : str) :
  In r [ansi_escape; Cls is_control; free_pattern; pro_pattern;
        legacy_pattern; general_pattern] ->
  match_len r s <> Some 0%nat.
Proof.
  intros Hr Hm. apply match_len_sound in Hm.
  destruct Hm as (_ & _ & L & _). rewrite firstn_O in L.
  simpl in Hr.
  destruct Hr as [<- | [<- | [<- | [<- | [<- | [<- | []]]]]]].
  - destruct L as (m1 & m2 & E & -> & _). discriminate E.
  - destruct L as (c & E & _). discriminate E.
  - apply lang_tunnel in L. destruct L as (sch & l & [-> | ->] & _ & _ & E);
      discriminate E.
  - apply lang_tunnel in L. destruct L as (sch & l & [-> | ->] & _ & _ & E);
      discriminate E.
  - apply lang_tunnel in L. destruct L as (sch & l & [-> | ->] & _ & _ & E);
      discriminate E.
  - destruct L as (m1 & m2 & E & L1 & _).
    apply lang_scheme in L1. destruct L1 as [-> | ->]; discriminate E.
Qed.

(** A string matches at most one tunnel pattern. *)
Lemma tunnel_suffix_unique (s1 s2 : string) (u : str) :
  ends_label (lit s1) -> ends_label (lit s2) ->
  lang (tunnel_pattern s1) u -> lang (tunnel_pattern s2) u ->
  lit s1 = lit s2.
Proof.
  intros E1 E2 L1 L2.
  apply lang_tunnel in L1. destruct L1 as (c1 & l1 & Hc1 & _ & Hl1 & ->).
  apply lang_tunnel in L2. destruct L2 as (c2 & l2 & Hc2 & _ & Hl2 & H).
  assert (Hl : l1 ++ lit s1 = l2 ++ lit s2).
  { destruct Hc1 as [-> | ->], Hc2 as [-> | ->]; simpl in H.
    - injection H as H. exact H.
    - injection H as H. destruct l1; simpl in *; [|apply andb_prop in Hl1];
        destruct s1; try discriminate; simpl in *; try congruence;
        destruct Hl1; injection H as -> _; discriminate.
    - injection H as H. destruct l2; simpl in *; [|apply andb_prop in Hl2];
        destruct s2; try discriminate; simpl in *; try congruence;
        destruct Hl2; injection H as <- _; discriminate.
    - injection H as H. exact H. }
  apply label_split in Hl; tauto.
Qed.

Lemma tier_of_free (u : str) : lang free_pattern u -> tier_of u = Some Free.
Proof.
  intros L. unfold tier_of.
  apply fullmatch_lang in L. rewrite L. reflexivity.
Qed.

Lemma tier_of_pro (u : str) : lang pro_pattern u -> tier_of u = Some Pro.
Proof.
  intros L. unfold tier_of.
  destruct (fullmatch free_pattern u) eqn:F.
  - apply fullmatch_lang in F.
    assert (H : lit free_suffix = lit pro_suffix)
      by (apply (@tunnel_suffix_unique _ _ u); auto; reflexivity).
    discriminate H.
  - apply fullmatch_lang in L. rewrite L. reflexivity.
Qed.

Lemma tier_of_legacy (u : str) :
  lang legacy_pattern u -> tier_of u = Some Legacy.
Proof.
  intros L. unfold tier_of.
  destruct (fullmatch free_pattern u) eqn:F.
  - apply fullmatch_lang in F.
    assert (H : lit free_suffix = lit legacy_suffix)
      by (apply (@tunnel_suffix_unique _ _ u); auto; reflexivity).
    discriminate H.
  - destruct (fullmatch pro_pattern u) eqn:P.
    + apply fullmatch_lang in P.
      assert (H : lit pro_suffix = lit legacy_suffix)
        by (apply (@tunnel_suffix_unique _ _ u); auto; reflexivity).
      discriminate H.
    + apply fullmatch_lang in L. rewrite L. reflexivity.
Qed.

(** ** No match of a tunnel pattern holds the dashboard host *)

Lemma contains_cons (needle : str) (c : char) (hay : str) :
  contains needle (c :: hay) =
  starts_with needle (c :: hay) || contains needle hay.
Proof. reflexivity. Qed.

Lemma contains_skip (c : char) (hay : str) :
  c <> ch "d" -> contains dashboard (c :: hay) = contains dashboard hay.
Proof.
  intros H. rewrite contains_cons.
  change (starts_with dashboard (c :: hay))
    with (N.eqb (ch "d") c && starts_with (lit "ashboard.pinggy.io") hay).
  destruct (N.eqb_spec (ch "d") c); [congruence|reflexivity].
Qed.

Section NoDashboard.
Variable suffix : str.
Hypothesis suffix_ends : ends_label suffix.
Hypothesis suffix_io : starts_with (lit ".pinggy.io") suffix = false.
Hypothesis suffix_clear : contains dashboard suffix = false.

Lemma label_not_dashboard (l : str) :
  forallb is_label l = true -> starts_with dashboard (l ++ suffix) = false.
Proof.
  intros Hl. destruct (starts_with dashboard (l ++ suffix)) eqn:H; [|reflexivity].
  apply starts_with_spec in H. destruct H as [rest H].
  change dashboard with (lit "dashboard" ++ lit ".pinggy.io") in H.
  rewrite <- app_assoc in H.
  apply label_split in H; [| assumption | reflexivity | assumption | reflexivity].
  destruct H as [_ H].
  assert (T : starts_with (lit ".pinggy.io") suffix = true)
    by (apply starts_with_spec; eauto).
  congruence.
Qed.

Lemma label_suffix_clear (l : str) :
  forallb is_label l = true -> contains dashboard (l ++ suffix) = false.
Proof.
  induction l as [|c l IH]; intros Hl; [exact suffix_clear|].
  change ((c :: l) ++ suffix) with (c :: (l ++ suffix)).
  rewrite contains_cons.
  change (c :: (l ++ suffix)) with ((c :: l) ++ suffix).
  rewrite (label_not_dashboard _ Hl).
  simpl in Hl. apply andb_prop in Hl. destruct Hl as [_ Hl].
  rewrite (IH Hl). reflexivity.
Qed.

Lemma scheme_label_suffix_clear (sch l : str) :
  sch = lit "http://" \/ sch = lit "https://" ->
  forallb is_label l = true ->
  contains dashboard (sch ++ l ++ suffix) = false.
Proof.
  intros [-> | ->] Hl; simpl app;
    repeat (rewrite contains_skip by discriminate);
    apply label_suffix_clear; exact Hl.
Qed.
End NoDashboard.

Lemma tunnel_not_dashboard (suffix : string) (u : str) :
  In suffix [free_suffix; pro_suffix; legacy_suffix] ->
  lang (tunnel_pattern suffix) u -> contains dashboard u = false.
Proof.
  intros Hs L. apply lang_tunnel in L.
  destruct L as (sch & l & Hsch & _ & Hl & ->).
  simpl in Hs.
  destruct Hs as [<- | [<- | [<- | []]]];
    apply scheme_label_suffix_clear; auto; reflexivity.
Qed.

(** ** Every tunnel URL of a text is found *)

Lemma star_greedy (A : Type) (p : char -> bool) (l t : str)
      (k : str -> option A) (r : A) :
  forallb p l = true ->
  match t with c :: _ => p c = false | [] => True end ->
  k t = Some r ->
  star p (l ++ t) k = Some r.
Proof.
  intros Hl Ht Hk. induction l as [|a l IH]; simpl.
  - destruct t as [|c t]; simpl; [exact Hk|]. rewrite Ht. exact Hk.
  - simpl in Hl. apply andb_prop in Hl. destruct Hl as [-> Hl].
    rewrite (IH Hl). reflexivity.
Qed.

Lemma run_text_exact (A : Type) (x post : str) (k : str -> option A) :
  run (text x) (x ++ post) k = k post.
Proof.
  induction x as [|c x IH]; simpl; [reflexivity|].
  rewrite N.eqb_refl. exact IH.
Qed.

Lemma run_scheme_exact (A : Type) (sch rest : str) (k : str -> option A) (r : A) :
  sch = lit "http://" \/ sch = lit "https://" ->
  k rest = Some r ->
  run scheme (sch ++ rest) k = Some r.
Proof.
  intros [-> | ->] H; unfold scheme; simpl; rewrite H; reflexivity.
Qed.

(** The suffixes of the three tunnel patterns start with a dot and hold
    no [h]. *)
Lemma tunnel_suffix_shape (suffix : string) :
  In suffix [free_suffix; pro_suffix; legacy_suffix] ->
  (exists s, lit suffix = ch "." :: s) /\ ~ In (ch "h") (lit suffix).
Proof.
  simpl. intros [<- | [<- | [<- | []]]]; (split; [eexists; reflexivity|]);
    simpl; intros H;
    repeat (destruct H as [H|H]; [discriminate H|]); exact H.
Qed.

(** At the place where a tunnel URL starts, the pattern matches this
    URL and nothing longer or shorter. *)
Lemma match_len_tunnel (suffix : string) (u post : str) :
  In suffix [free_suffix; pro_suffix; legacy_suffix] ->
  lang (tunnel_pattern suffix) u ->
  match_len (tunnel_pattern suffix) (u ++ post) = Some (length u).
Proof.
  intros Hs L. apply tunnel_suffix_shape in Hs. destruct Hs as [[s Hd] _].
  apply lang_tunnel in L. destruct L as (sch & l & Hsch & Hne & Hl & ->).
  assert (R : run (tunnel_pattern suffix)
                  ((sch ++ l ++ lit suffix) ++ post) (fun rest => Some rest)
              = Some post).
  { rewrite <- !app_assoc. unfold tunnel_pattern.
    change (run (Cat scheme ?x) ?s ?k) with (run scheme s (fun s1 => run x s1 k)).
    apply run_scheme_exact; [exact Hsch|].
    change (run (Cat (Plus is_label) ?x) ?s ?k)
      with (run (Plus is_label) s (fun s1 => run x s1 k)).
    destruct l as [|a l]; [congruence|].
    simpl in Hl. apply andb_prop in Hl. destruct Hl as [Ha Hl].
    change (run (Plus is_label) (((a :: l) ++ lit suffix ++ post)) ?k)
      with (if is_label a then star is_label (l ++ lit suffix ++ post) k else None).
    rewrite Ha. apply star_greedy.
    - exact Hl.
    - rewrite Hd. reflexivity.
    - apply run_text_exact. }
  unfold match_len. rewrite R. f_equal.
  rewrite length_app. lia.
Qed.

Lemma in_middle (A : Type) (c : A) (pre k x : list A) :
  x = pre ++ c :: k -> In c x.
Proof. intros ->. apply in_elt. Qed.

(** No tunnel URL starts inside a match of its pattern. *)
Lemma no_url_inside (suffix : string) (m u rest pre post : str) :
  In suffix [free_suffix; pro_suffix; legacy_suffix] ->
  lang (tunnel_pattern suffix) m ->
  lang (tunnel_pattern suffix) u ->
  m ++ rest = pre ++ u ++ post ->
  pre <> [] -> (length pre < length m)%nat -> False.
Proof.
  intros Hs Lm Lu E Hpre Hlen.
  apply tunnel_suffix_shape in Hs. destruct Hs as [[sd Hd] Hh].
  apply lang_tunnel in Lm. destruct Lm as (sch & l & Hsch & _ & Hl & ->).
  apply lang_tunnel in Lu. destruct Lu as (sch' & l' & Hsch' & _ & Hl' & ->).
  (* what the text looks like where [u] starts *)
  set (U := (sch' ++ l' ++ lit suffix) ++ post) in *.
  assert (U1 : exists U', U = ch "h" :: U')
    by (subst U; destruct Hsch' as [-> | ->]; eexists; reflexivity).
  assert (U2 : exists lab t, U = lab ++ ch ":" :: t /\ forallb is_label lab = true).
  { subst U. destruct Hsch' as [-> | ->].
    - exists (lit "http"). eexists. split; reflexivity.
    - exists (lit "https"). eexists. split; reflexivity. }
  clearbody U.
  rewrite <- !app_assoc in E. rewrite !length_app in Hlen.
  apply app_eq_app in E. destruct E as [k [[E1 E2]|[E1 E2]]].
  - (* [u] starts in the scheme of [m] *)
    destruct k as [|c k].
    + rewrite app_nil_r in E1. subst pre. simpl in E2.
      destruct U2 as (lab & t & -> & Hlab).
      apply label_split in E2; [|assumption|assumption|reflexivity|rewrite Hd; reflexivity].
      destruct E2 as [_ E2]. rewrite Hd in E2. discriminate E2.
    + destruct U1 as [U' ->]. simpl in E2. injection E2 as <- _.
      destruct pre as [|p0 pre]; [congruence|].
      destruct Hsch as [-> | ->]; simpl in E1; injection E1 as _ E1;
        apply in_middle in E1; simpl in E1;
        repeat (destruct E1 as [E1|E1]; [discriminate E1|]); exact E1.
  - subst pre. rewrite length_app in Hlen.
    apply app_eq_app in E2. destruct E2 as [k2 [[E1 E2]|[E1 E2]]].
    + (* [u] starts in the label of [m] *)
      subst l. rewrite forallb_app in Hl. apply andb_prop in Hl.
      destruct Hl as [_ Hl].
      destruct U2 as (lab & t & -> & Hlab).
      apply label_split in E2; [|assumption|assumption|reflexivity|rewrite Hd; reflexivity].
      destruct E2 as [_ E2]. rewrite Hd in E2. discriminate E2.
    + (* [u] starts in the suffix of [m] *)
      subst k. rewrite length_app in Hlen.
      apply app_eq_app in E2. destruct E2 as [k3 [[E1 E2]|[E1 E2]]].
      * destruct k3 as [|c k3].
        -- rewrite app_nil_r in E1. rewrite E1 in Hlen. lia.
        -- destruct U1 as [U' ->]. simpl in E2. injection E2 as <- _.
           apply Hh. eapply in_middle. exact E1.
      * subst k2. rewrite length_app in Hlen. lia.
Qed.

Lemma findall_from_tunnel (suffix : string) (u post : str) :
  In suffix [free_suffix; pro_suffix; legacy_suffix] ->
  lang (tunnel_pattern suffix) u ->
  forall pre skip,
    (skip <= length pre)%nat ->
    In u (findall_from (tunnel_pattern suffix) skip (pre ++ u ++ post)).
Proof.
  intros Hs L.
  assert (Hu : exists c u', u = c :: u').
  { pose proof L as L'. apply lang_tunnel in L'.
    destruct L' as (sch & l & [-> | ->] & _ & _ & ->); eexists; eexists; reflexivity. }
  induction pre as [|a pre IH]; intros skip Hskip.
  - simpl in Hskip. assert (skip = 0%nat) by lia. subst skip.
    pose proof (@match_len_tunnel suffix u post Hs L) as M.
    destruct Hu as (c & u' & ->). simpl app in *.
    cbn [findall_from]. rewrite M. cbn [length].
    left. change (c :: u' ++ post) with ((c :: u') ++ post).
    rewrite firstn_app.
    change (S (length u')) with (length (c :: u')).
    rewrite firstn_all, Nat.sub_diag. simpl. rewrite app_nil_r. reflexivity.
  - change ((a :: pre) ++ u ++ post) with (a :: (pre ++ u ++ post)).
    cbn [findall_from]. destruct skip as [|k].
    + destruct (match_len (tunnel_pattern suffix) (a :: pre ++ u ++ post))
        as [[|n]|] eqn:M.
      * right. apply IH. lia.
      * right. apply IH.
        destruct (Nat.le_gt_cases n (length pre)) as [Hle|Hgt]; [exact Hle|].
        exfalso. apply match_len_sound in M.
        destruct M as (rest & E & Lm & Hn).
        apply (@no_url_inside suffix _ u rest (a :: pre) post Hs Lm L).
        -- rewrite <- E. reflexivity.
        -- discriminate.
        -- rewrite Hn. simpl. lia.
      * apply IH. lia.
    + apply IH. simpl in Hskip. lia.
Qed.

(** [findall] finds every URL of a tunnel pattern that the text holds. *)
Lemma findall_tunnel_complete (suffix : string) (text u : str) :
  In suffix [free_suffix; pro_suffix; legacy_suffix] ->
  lang (tunnel_pattern suffix) u -> occurs u text ->
  In u (findall (tunnel_pattern suffix) text).
Proof.
  intros Hs L (pre & post & ->). unfold findall.
  apply findall_from_tunnel; [exact Hs|exact L|lia].
Qed.

(* ================================================================== *)
(** * The loop that builds [unique_urls] *)
(* ================================================================== *)

Lemma add_unique_in (acc : list str) (url x : str) :
  In x (add_unique acc url) <->
  In x acc \/ (x = url /\ contains dashboard url = false).
Proof.
  unfold add_unique.
  destruct (in_dec str_eq_dec url acc) as [Hin|Hin]; simpl.
  - split; [auto|]. intros [H|[-> _]]; assumption.
  - destruct (contains dashboard url) eqn:Hd; simpl.
    + split; [auto|]. intros [H|[_ H]]; [assumption|discriminate].
    + rewrite in_app_iff. simpl. split.
      * intros [H|[<-|[]]]; auto.
      * intros [H|[-> _]]; auto.
Qed.

Lemma fold_add_unique_in (found : list str) :
  forall acc x,
    In x (fold_left add_unique found acc) <->
    In x acc \/ (In x found /\ contains dashboard x = false).
Proof.
  induction found as [|u found IH]; intros acc x; simpl.
  - tauto.
  - rewrite IH, add_unique_in. split.
    + intros [[H|[-> H]]|[H1 H2]]; auto.
    + intros [H|[[<-|H1] H2]]; auto.
Qed.

(** What [unique_urls] holds: the matches that pass the dashboard
    test. *)
Lemma unique_of_in (found : list str) (x : str) :
  In x (unique_of found) <-> In x found /\ contains dashboard x = false.
Proof.
  unfold unique_of. rewrite fold_add_unique_in. simpl. tauto.
Qed.

Lemma add_unique_NoDup (acc : list str) (url : str) :
  NoDup acc -> NoDup (add_unique acc url).
Proof.
  intros H. unfold add_unique.
  destruct (in_dec str_eq_dec url acc) as [Hin|Hin]; simpl; [exact H|].
  destruct (contains dashboard url); simpl; [exact H|].
  apply NoDup_app; [exact H | constructor; [intros []|constructor] |].
  intros a Ha [<-|[]]. contradiction.
Qed.

Lemma fold_add_unique_NoDup (found : list str) :
  forall acc, NoDup acc -> NoDup (fold_left add_unique found acc).
Proof.
  induction found as [|u found IH]; intros acc H; simpl; [exact H|].
  apply IH, add_unique_NoDup, H.
Qed.

Lemma unique_of_NoDup (found : list str) : NoDup (unique_of found).
Proof. apply fold_add_unique_NoDup. constructor. Qed.

Lemma unseen_snoc (acc : list str) (x y : str) :
  unseen (acc ++ [x]) y = unseen acc y && (if str_eq_dec x y then false else true).
Proof.
  unfold unseen.
  destruct (in_dec str_eq_dec y (acc ++ [x])) as [H|H];
    destruct (in_dec str_eq_dec y acc) as [H'|H'];
    destruct (str_eq_dec x y) as [E|E]; try reflexivity; exfalso.
  - apply in_app_or in H. destruct H as [H|[H|[]]]; congruence.
  - apply H, in_or_app. left. exact H'.
  - apply H, in_or_app. left. exact H'.
  - apply H, in_or_app. right. left. exact E.
Qed.

Lemma filter_unseen_snoc (acc : list str) (x : str) (l : list str) :
  filter (unseen (acc ++ [x])) l = filter (unseen acc) (remove str_eq_dec x l).
Proof.
  induction l as [|y l IH]; [reflexivity|].
  simpl. rewrite unseen_snoc, IH.
  destruct (str_eq_dec x y) as [E|E]; simpl.
  - rewrite andb_false_r. reflexivity.
  - rewrite andb_true_r. reflexivity.
Qed.

Lemma filter_unseen_remove (acc : list str) (x : str) (l : list str) :
  In x acc ->
  filter (unseen acc) (remove str_eq_dec x l) = filter (unseen acc) l.
Proof.
  intros Hx. induction l as [|y l IH]; [reflexivity|].
  simpl. destruct (str_eq_dec x y) as [<-|Hxy]; simpl; rewrite IH.
  - unfold unseen. destruct (in_dec str_eq_dec x acc); [reflexivity|contradiction].
  - reflexivity.
Qed.

Lemma fold_add_unique_first_seen (found : list str) :
  forall acc,
    fold_left add_unique found acc =
    acc ++ filter (unseen acc) (first_seen (filter keeps found)).
Proof.
  induction found as [|u found IH]; intros acc.
  - simpl. rewrite app_nil_r. reflexivity.
  - simpl fold_left. rewrite IH. unfold add_unique, keeps. simpl filter.
    fold keeps.
    destruct (in_dec str_eq_dec u acc) as [Hin|Hin];
      destruct (contains dashboard u) eqn:Hd; simpl; try reflexivity.
    + assert (U : unseen acc u = false)
        by (unfold unseen; destruct (in_dec str_eq_dec u acc);
            [reflexivity|contradiction]).
      rewrite U, filter_unseen_remove by assumption. reflexivity.
    + assert (U : unseen acc u = true)
        by (unfold unseen; destruct (in_dec str_eq_dec u acc);
            [contradiction|reflexivity]).
      rewrite U, <- app_assoc. simpl. rewrite filter_unseen_snoc. reflexivity.
Qed.

(** The loop of the script computes it, on the matches that pass the
    dashboard test. *)
Lemma unique_of_first_seen (found : list str) :
  unique_of found = first_seen (filter keeps found).
Proof.
  unfold unique_of. rewrite fold_add_unique_first_seen. simpl.
  induction (first_seen (filter keeps found)) as [|x l IH]; [reflexivity|].
  simpl. f_equal. exact IH.
Qed.

(** Matches that are new to what was kept so far are appended behind
    it. *)
Lemma fold_add_unique_fresh (found : list str) :
  forall front acc,
    (forall x, In x found -> ~ In x front) ->
    fold_left add_unique found (front ++ acc) =
    front ++ fold_left add_unique found acc.
Proof.
  induction found as [|u found IH]; intros front acc H; simpl; [reflexivity|].
  assert (Hu : add_unique (front ++ acc) u = front ++ add_unique acc u).
  { unfold add_unique.
    destruct (in_dec str_eq_dec u (front ++ acc)) as [Hin|Hin];
      destruct (in_dec str_eq_dec u acc) as [Hin'|Hin']; simpl.
    - reflexivity.
    - apply in_app_or in Hin. destruct Hin as [Hin|Hin]; [|contradiction].
      exfalso. apply (H u); simpl; auto.
    - exfalso. apply Hin, in_or_app. auto.
    - destruct (contains dashboard u); simpl; [reflexivity|].
      symmetry. apply app_assoc. }
  rewrite Hu. apply IH. intros x Hx. apply H. simpl. auto.
Qed.

Lemma unique_of_app (l1 l2 : list str) :
  (forall x, In x l2 -> ~ In x l1) ->
  unique_of (l1 ++ l2) = unique_of l1 ++ unique_of l2.
Proof.
  intros H. unfold unique_of. rewrite fold_left_app.
  rewrite <- (app_nil_r (fold_left add_unique l1 [])) at 1.
  apply fold_add_unique_fresh.
  intros x Hx Hin. apply unique_of_in in Hin. apply (H x Hx), Hin.
Qed.

(* ================================================================== *)
(** * Cleaning the content *)
(* ================================================================== *)

Lemma match_len_class (p : char -> bool) (c : char) (s : str) :
  match_len (Cls p) (c :: s) = if p c then Some 1%nat else None.
Proof.
  unfold match_len. cbn [run]. destruct (p c); [|reflexivity].
  f_equal. cbn [length]. lia.
Qed.

(** Removing the matches of a character class keeps the other
    characters. *)
Lemma sub_class (p : char -> bool) (s : str) :
  sub (Cls p) s = filter (fun c => negb (p c)) s.
Proof.
  unfold sub. induction s as [|c s IH]; [reflexivity|].
  simpl sub_from. rewrite match_len_class. simpl filter.
  destruct (p c); simpl; rewrite IH; reflexivity.
Qed.

(** Without an escape character there is no escape sequence to
    remove. *)
Lemma sub_ansi_no_escape (s : str) :
  forallb (fun c => negb (N.eqb c ESC)) s = true -> sub ansi_escape s = s.
Proof.
  unfold sub. induction s as [|c s IH]; [reflexivity|].
  simpl forallb. intros H. apply andb_prop in H. destruct H as [Hc Hs].
  simpl sub_from.
  assert (Hm : match_len ansi_escape (c :: s) = None).
  { unfold match_len, ansi_escape. simpl run.
    destruct (N.eqb c ESC); [discriminate|reflexivity]. }
  rewrite Hm, (IH Hs). reflexivity.
Qed.

Lemma clean_text_no_escape (s : str) :
  clean_text s -> forallb (fun c => negb (N.eqb c ESC)) s = true.
Proof.
  unfold clean_text. rewrite !forallb_forall. intros H c Hc.
  specialize (H c Hc). destruct (N.eqb_spec c ESC) as [->|]; [|reflexivity].
  discriminate H.
Qed.

Lemma clean_fixes_clean_text (s : str) : clean_text s -> clean s = s.
Proof.
  intros H. unfold clean.
  rewrite (sub_ansi_no_escape _ (clean_text_no_escape H)), sub_class.
  unfold clean_text in H. rewrite forallb_forall in H.
  induction s as [|c s IH]; [reflexivity|].
  simpl. rewrite (H c (or_introl eq_refl)). f_equal.
  apply IH. intros x Hx. apply H. right. exact Hx.
Qed.

Lemma clean_gives_clean_text (s : str) : clean_text (clean s).
Proof.
  unfold clean, clean_text. rewrite sub_class.
  apply forallb_forall. intros c Hc. apply filter_In in Hc. tauto.
Qed.

(** C7. Stripping escape sequences and control characters is
    idempotent: cleaning a second time changes nothing, and text that
    holds none of the control characters of the second pattern (hence
    no escape character) comes back unchanged. *)
Theorem clean_idempotent (s : str) :
  clean (clean s) = clean s /\ (clean_text s -> clean s = s).
Proof.
  split.
  - apply clean_fixes_clean_text, clean_gives_clean_text.
  - apply clean_fixes_clean_text.
Qed.

Lemma clean_idempotent_witness :
  let raw := ESC :: lit "[31;1mhttps://abc.a.free.pinggy.link" ++ [7; 10] in
  let text := lit "https://abc.a.free.pinggy.link" ++ [10] in
  clean raw = text /\ clean (clean raw) = clean raw /\
  clean_text text /\ clean text = text.
Proof.
  intros raw text.
  split; [reflexivity|].
  split; [exact (proj1 (clean_idempotent raw))|].
  split; [reflexivity|].
  exact (proj2 (clean_idempotent text) eq_refl).
Defined.

(* ================================================================== *)
(** * De-duplication *)
(* ================================================================== *)

(** C5. When the collected matches are [B; A; B] for two distinct URLs
    that do not hold the dashboard host, [unique_urls] is [B; A]: the
    order in which the URLs were first seen is kept and the later
    duplicate is dropped. *)
Theorem dedup_first_seen (A B : str) :
  A <> B ->
  contains dashboard A = false -> contains dashboard B = false ->
  unique_of [B; A; B] = [B; A].
Proof.
  intros Hne HA HB. unfold unique_of. simpl fold_left.
  assert (E1 : add_unique [] B = [B]).
  { unfold add_unique. simpl. rewrite HB. reflexivity. }
  assert (E2 : add_unique [B] A = [B; A]).
  { unfold add_unique.
    destruct (in_dec str_eq_dec A [B]) as [[H|[]]|_]; [congruence|].
    rewrite HA. reflexivity. }
  assert (E3 : add_unique [B; A] B = [B; A]).
  { unfold add_unique.
    destruct (in_dec str_eq_dec B [B; A]) as [_|H]; [reflexivity|].
    exfalso. apply H. left. reflexivity. }
  rewrite E1, E2, E3. reflexivity.
Qed.

Lemma dedup_first_seen_witness :
  let A := lit "https://a.pinggy.link" in
  let B := lit "https://b.pinggy.link" in
  found_urls (lit "https://b.pinggy.link https://a.pinggy.link https://b.pinggy.link")
    = [B; A; B] /\
  unique_of [B; A; B] = [B; A].
Proof.
  intros A B. split; [reflexivity|].
  apply (@dedup_first_seen A B); [discriminate | reflexivity | reflexivity].
Defined.

(* ================================================================== *)
(** * What one poll prints *)
(* ================================================================== *)

Lemma extract_prioritized (content : str) (urls : list str) :
  extract content = Some (Prioritized, urls) <->
  urls = unique_urls (clean content) /\ urls <> [].
Proof.
  unfold extract.
  destruct (unique_urls (clean content)) as [|u us].
  - destruct (tunnel_urls (clean content)); split;
      try discriminate; intros [-> H]; congruence.
  - split.
    + intros H. injection H as <-. split; [reflexivity|discriminate].
    + intros [-> _]. reflexivity.
Qed.

Lemma extract_fallback (content : str) (urls : list str) :
  extract content = Some (Fallback, urls) <->
  unique_urls (clean content) = [] /\
  urls = tunnel_urls (clean content) /\ urls <> [].
Proof.
  unfold extract.
  destruct (unique_urls (clean content)) as [|u us].
  - destruct (tunnel_urls (clean content)) as [|t ts]; split.
    + discriminate.
    + intros (_ & -> & H). congruence.
    + intros H. injection H as <-. repeat split. discriminate.
    + intros (_ & -> & _). reflexivity.
  - split; [discriminate|]. intros [H _]. discriminate.
Qed.

(** On either path a matched URL is printed exactly when the test
    ['dashboard.pinggy.io' in url] is false. *)
Lemma extract_in (content : str) (p : path) (urls : list str) (u : str) :
  extract content = Some (p, urls) ->
  (In u urls <->
   In u (matched p (clean content)) /\ contains dashboard u = false).
Proof.
  intros H. destruct p.
  - apply extract_prioritized in H. destruct H as [-> _].
    apply unique_of_in.
  - apply extract_fallback in H. destruct H as (_ & -> & _).
    unfold tunnel_urls. rewrite filter_In, negb_true_iff. reflexivity.
Qed.

(** C9. The dashboard exclusion is the substring test
    ['dashboard.pinggy.io' in url] and nothing else: on either path a
    matched URL is printed exactly when the text [dashboard.pinggy.io]
    does not occur in it, wherever in the URL that may be and whatever
    its host. *)
Theorem dashboard_exclusion_is_substring (content : str) (p : path)
        (urls : list str) (u : str) :
  extract content = Some (p, urls) ->
  (In u urls <->
   In u (matched p (clean content)) /\ ~ occurs dashboard u).
Proof.
  intros H.
  assert (Hc : ~ occurs dashboard u <-> contains dashboard u = false).
  { rewrite <- contains_spec. destruct (contains dashboard u); split;
      congruence. }
  rewrite Hc. apply extract_in. exact H.
Qed.

Lemma dashboard_exclusion_is_substring_witness :
  let content :=
    lit "see https://dashboard.pinggy.io/x and http://a.b.pinggy.link/dashboard.pinggy.io and https://DASHBOARD.pinggy.io/y" in
  let dash := lit "https://dashboard.pinggy.io/x" in
  let tunnel := lit "http://a.b.pinggy.link/dashboard.pinggy.io" in
  let upper := lit "https://DASHBOARD.pinggy.io/y" in
  extract content = Some (Fallback, [upper]) /\
  matched Fallback (clean content) = [dash; tunnel; upper] /\
  (In tunnel [upper] <->
   In tunnel (matched Fallback (clean content)) /\ ~ occurs dashboard tunnel) /\
  (In upper [upper] <->
   In upper (matched Fallback (clean content)) /\ ~ occurs dashboard upper).
Proof.
  intros content dash tunnel upper.
  split; [reflexivity|]. split; [reflexivity|]. split.
  - apply (@dashboard_exclusion_is_substring content Fallback [upper] tunnel).
    reflexivity.
  - apply (@dashboard_exclusion_is_substring content Fallback [upper] upper).
    reflexivity.
Defined.

(** A URL on a tunnel host is dropped because of its path, and a URL on
    the dashboard host written in capitals is printed. *)
Example dashboard_exclusion_examples :
  let tunnel := lit "http://a.b.pinggy.link/dashboard.pinggy.io" in
  let upper := lit "https://DASHBOARD.pinggy.io/y" in
  extract tunnel = None /\
  all_urls (clean tunnel) = [tunnel] /\
  extract upper = Some (Fallback, [upper]).
Proof. repeat split. Qed.

(** ** The order of the prioritized path *)

Lemma before_across (u v : str) (l1 l2 : list str) :
  In u l1 -> In v l2 -> before u v (l1 ++ l2).
Proof.
  intros Hu Hv.
  apply in_split in Hu. destruct Hu as (a & b & ->).
  apply in_split in Hv. destruct Hv as (c & d & ->).
  exists a, (b ++ c), d.
  repeat (rewrite <- app_assoc; simpl). reflexivity.
Qed.

Lemma before_app_l (u v : str) (l1 l2 : list str) :
  before u v l2 -> before u v (l1 ++ l2).
Proof.
  intros (a & b & c & ->). exists (l1 ++ a), b, c.
  rewrite <- app_assoc. reflexivity.
Qed.

Lemma found_urls_groups (text : str) :
  found_urls text =
  findall free_pattern text ++ findall pro_pattern text ++
  findall legacy_pattern text.
Proof.
  unfold found_urls, tunnel_patterns. simpl. rewrite app_nil_r. reflexivity.
Qed.

Lemma findall_tier (text u : str) :
  (In u (findall free_pattern text) -> tier_of u = Some Free) /\
  (In u (findall pro_pattern text) -> tier_of u = Some Pro) /\
  (In u (findall legacy_pattern text) -> tier_of u = Some Legacy).
Proof.
  repeat split; intros H; apply findall_lang in H; destruct H as [L _].
  - apply tier_of_free, L.
  - apply tier_of_pro, L.
  - apply tier_of_legacy, L.
Qed.

Lemma unique_urls_groups (text : str) :
  unique_urls text =
  unique_of (findall free_pattern text) ++
  unique_of (findall pro_pattern text) ++
  unique_of (findall legacy_pattern text).
Proof.
  unfold unique_urls. rewrite found_urls_groups.
  rewrite unique_of_app.
  - f_equal. apply unique_of_app.
    intros x H3 H2.
    apply findall_tier in H3. apply findall_tier in H2. congruence.
  - intros x H23 H1. apply findall_tier in H1.
    apply in_app_or in H23. destruct H23 as [H|H];
      apply findall_tier in H; congruence.
Qed.

Lemma unique_of_tier (text u : str) :
  (In u (unique_of (findall free_pattern text)) -> tier_of u = Some Free) /\
  (In u (unique_of (findall pro_pattern text)) -> tier_of u = Some Pro) /\
  (In u (unique_of (findall legacy_pattern text)) -> tier_of u = Some Legacy).
Proof.
  repeat split; intros H; apply unique_of_in in H; destruct H as [H _];
    apply findall_tier in H; exact H.
Qed.

(** C10. On the prioritized path the printed list is grouped by
    pattern priority, not ordered by position in the text: it is the
    free-tier matches, then the pro-tier matches, then the legacy
    matches; so every printed URL of an earlier tier stands before
    every printed URL of a later tier.  Only inside a group is the
    order that of the text: a group is the matches of its pattern,
    which [findall] lists in text order, each kept where it is first
    seen. *)
Theorem prioritized_order_by_tier (content : str) (urls : list str) :
  extract content = Some (Prioritized, urls) ->
  let group p := unique_of (findall p (clean content)) in
  urls = group free_pattern ++ group pro_pattern ++ group legacy_pattern /\
  Forall (fun u => tier_of u = Some Free) (group free_pattern) /\
  Forall (fun u => tier_of u = Some Pro) (group pro_pattern) /\
  Forall (fun u => tier_of u = Some Legacy) (group legacy_pattern) /\
  (forall u v tu tv,
      In u urls -> In v urls ->
      tier_of u = Some tu -> tier_of v = Some tv ->
      (tier_rank tu < tier_rank tv)%nat ->
      before u v urls) /\
  (forall p,
      group p = first_seen (filter keeps (findall p (clean content))) /\
      in_order (findall p (clean content)) (clean content)).
Proof.
  intros H group. apply extract_prioritized in H. destruct H as [-> _].
  rewrite unique_urls_groups. fold (group free_pattern) (group pro_pattern)
    (group legacy_pattern).
  split; [reflexivity|].
  split; [apply Forall_forall; intros u; apply unique_of_tier|].
  split; [apply Forall_forall; intros u; apply unique_of_tier|].
  split; [apply Forall_forall; intros u; apply unique_of_tier|].
  split; [|intros p; split;
           [apply unique_of_first_seen | apply findall_in_order]].
  intros u v tu tv Hu Hv Tu Tv Hlt.
  assert (Gu : forall x, In x (group free_pattern ++ group pro_pattern ++
                               group legacy_pattern) ->
                    (In x (group free_pattern) /\ tier_of x = Some Free) \/
                    (In x (group pro_pattern) /\ tier_of x = Some Pro) \/
                    (In x (group legacy_pattern) /\ tier_of x = Some Legacy)).
  { intros x Hx. apply in_app_or in Hx. destruct Hx as [Hx|Hx];
      [|apply in_app_or in Hx; destruct Hx as [Hx|Hx]];
      pose proof (unique_of_tier (clean content) x) as (T1 & T2 & T3);
      auto. }
  destruct (Gu u Hu) as [[Iu Eu]|[[Iu Eu]|[Iu Eu]]];
    destruct (Gu v Hv) as [[Iv Ev]|[[Iv Ev]|[Iv Ev]]];
    rewrite Eu in Tu; rewrite Ev in Tv;
    injection Tu as <-; injection Tv as <-; simpl in Hlt;
    try (exfalso; lia).
  - apply before_across; [exact Iu|]. apply in_or_app. left. exact Iv.
  - apply before_across; [exact Iu|]. apply in_or_app. right. exact Iv.
  - apply before_app_l. apply before_across; assumption.
Qed.

Lemma prioritized_order_by_tier_witness :
  let content :=
    lit "https://p.a.pinggy.link then https://f.a.free.pinggy.link and https://l.pinggy.link" in
  let f := lit "https://f.a.free.pinggy.link" in
  let p := lit "https://p.a.pinggy.link" in
  let l := lit "https://l.pinggy.link" in
  extract content = Some (Prioritized, [f; p; l]) /\
  before f p [f; p; l].
Proof.
  intros content f p l. split; [reflexivity|].
  refine (proj1 (proj2 (proj2 (proj2 (proj2
            (@prioritized_order_by_tier content [f; p; l] eq_refl)))))
            f p Free Pro _ _ eq_refl eq_refl _).
  - simpl. auto.
  - simpl. auto.
  - simpl. lia.
Defined.

(** ** Duplicates *)

(** On the prioritized path no URL is printed twice. *)
Lemma prioritized_no_duplicates (content : str) (urls : list str) :
  extract content = Some (Prioritized, urls) -> NoDup urls.
Proof.
  intros H. apply extract_prioritized in H. destruct H as [-> _].
  apply unique_of_NoDup.
Qed.

(** On the fallback path the printed list is the list of matches, in
    text order, without those that hold the dashboard host; nothing
    else is dropped. *)
Lemma fallback_keeps_matches (content : str) (urls : list str) :
  extract content = Some (Fallback, urls) ->
  urls = filter keeps (findall general_pattern (clean content)).
Proof.
  intros H. apply extract_fallback in H. destruct H as (_ & -> & _).
  reflexivity.
Qed.

(** C4. The printed list has no duplicates on the prioritized path, but
    the fallback path does not de-duplicate: for a sink that holds the
    same URL twice (a URL only the generic pattern matches), one poll
    prints it twice. *)
Theorem fallback_prints_duplicate :
  let url := lit "https://x.pinggy.io" in
  extract (lit "https://x.pinggy.io https://x.pinggy.io")
    = Some (Fallback, [url; url]) /\
  ~ NoDup [url; url].
Proof.
  intros url. split; [reflexivity|].
  intros H. inversion H as [|x l Hin _]. apply Hin. left. reflexivity.
Qed.

(** ** Free-tier URLs and the dashboard *)

(** No printed URL holds the dashboard host, on either path. *)
Lemma printed_not_dashboard (content u : str) :
  In u (printed content) -> contains dashboard u = false.
Proof.
  unfold printed. destruct (extract content) as [[p urls]|] eqn:H; [|intros []].
  intros Hu.
  apply (@extract_in content p urls u H) in Hu. tauto.
Qed.

Lemma found_urls_tier (text u : str) :
  In u (found_urls text) -> tier_of u <> None.
Proof.
  rewrite found_urls_groups. intros H.
  apply in_app_or in H. destruct H as [H|H];
    [|apply in_app_or in H; destruct H as [H|H]];
    apply findall_tier in H; congruence.
Qed.

(** A text that holds a free-tier URL gives [findall] a free-tier match
    that passes the dashboard test. *)
Lemma free_url_found (text : str) :
  has_url free_pattern text ->
  exists u, In u (unique_of (findall free_pattern text)).
Proof.
  intros (u & F & pre & post & ->).
  apply fullmatch_lang in F.
  pose proof (@findall_nonempty free_pattern pre u post F) as Hne.
  destruct (findall free_pattern (pre ++ u ++ post)) as [|m ms] eqn:E;
    [congruence|].
  exists m. apply unique_of_in.
  assert (Hm : In m (findall free_pattern (pre ++ u ++ post)))
    by (rewrite E; left; reflexivity).
  split; [rewrite <- E; exact Hm|].
  apply findall_lang in Hm. destruct Hm as [L _].
  apply (@tunnel_not_dashboard free_suffix); [left; reflexivity|exact L].
Qed.

Lemma tunnel_patterns_suffix (p : regex) :
  In p tunnel_patterns <->
  exists suffix, In suffix [free_suffix; pro_suffix; legacy_suffix] /\
                 p = tunnel_pattern suffix.
Proof.
  unfold tunnel_patterns, free_pattern, pro_pattern, legacy_pattern. simpl.
  split.
  - intros [<- | [<- | [<- | []]]]; eauto 6.
  - intros (suffix & [<- | [<- | [<- | []]]] & ->); auto.
Qed.

Lemma found_urls_in (text u : str) :
  In u (found_urls text) <->
  exists p, In p tunnel_patterns /\ In u (findall p text).
Proof.
  unfold found_urls. apply in_flat_map.
Qed.

(** On the prioritized path the poll prints the URLs of the tunnel
    patterns that the cleaned content holds, all of them and nothing
    else. *)
Lemma unique_urls_spec (text u : str) :
  In u (unique_urls text) <->
  exists p, In p tunnel_patterns /\ fullmatch p u = true /\ occurs u text.
Proof.
  unfold unique_urls. rewrite unique_of_in. split.
  - intros [H _]. apply found_urls_in in H. destruct H as (p & Hp & Hu).
    apply findall_lang in Hu. destruct Hu as [L O].
    exists p. rewrite fullmatch_lang. auto.
  - intros (p & Hp & F & O). apply fullmatch_lang in F.
    pose proof Hp as Hs. apply tunnel_patterns_suffix in Hs.
    destruct Hs as (suffix & Hs & ->).
    split.
    + apply found_urls_in. exists (tunnel_pattern suffix).
      split; [exact Hp|]. apply findall_tunnel_complete; assumption.
    + apply (@tunnel_not_dashboard suffix); assumption.
Qed.

(** C1, as the code has it.  One poll never prints a URL that holds the
    dashboard host.  When the cleaned content holds a free-tier URL the
    poll takes the prioritized path and prints exactly the URLs of the
    cleaned content that match one of the three tunnel patterns: every
    free-tier URL of the cleaned content, and every pro-tier and legacy
    URL of it as well.  Only free-tier URLs are printed when the
    cleaned content has no pro-tier and no legacy match. *)
Theorem free_tier_extraction (content : str) :
  (forall u, In u (printed content) -> contains dashboard u = false) /\
  (has_url free_pattern (clean content) ->
   exists urls,
     extract content = Some (Prioritized, urls) /\
     (forall u, In u urls <->
                exists p, In p tunnel_patterns /\ fullmatch p u = true /\
                          occurs u (clean content)) /\
     (forall u, fullmatch free_pattern u = true -> occurs u (clean content) ->
                In u urls /\ tier_of u = Some Free) /\
     (exists u, In u urls /\ tier_of u = Some Free) /\
     (forall u, In u urls -> tier_of u <> None) /\
     (findall pro_pattern (clean content) = [] ->
      findall legacy_pattern (clean content) = [] ->
      forall u, In u urls -> tier_of u = Some Free)).
Proof.
  split; [intros u; apply printed_not_dashboard|].
  intros Hfree. apply free_url_found in Hfree. destruct Hfree as [m Hm].
  exists (unique_urls (clean content)).
  assert (Hin : In m (unique_urls (clean content))).
  { rewrite unique_urls_groups. apply in_or_app. left. exact Hm. }
  split.
  - apply extract_prioritized. split; [reflexivity|].
    intros E. rewrite E in Hin. destruct Hin.
  - split; [apply unique_urls_spec|].
    split.
    + intros u F O. split.
      * apply unique_urls_spec. exists free_pattern.
        split; [left; reflexivity|]. auto.
      * apply tier_of_free. apply fullmatch_lang. exact F.
    + split.
      * exists m. split; [exact Hin|]. apply unique_of_tier in Hm. exact Hm.
      * split.
        -- intros u Hu. apply unique_of_in in Hu. destruct Hu as [Hu _].
           apply found_urls_tier in Hu. exact Hu.
        -- intros Hp Hl u Hu. rewrite unique_urls_groups, Hp, Hl in Hu.
           change (unique_of []) with (@nil str) in Hu.
           rewrite !app_nil_r in Hu. apply unique_of_tier in Hu. exact Hu.
Qed.

Lemma free_tier_extraction_witness :
  let content :=
    lit "...connect to https://abc123.a.free.pinggy.link for tunnel, dashboard at https://dashboard.pinggy.io/x..." in
  let url := lit "https://abc123.a.free.pinggy.link" in
  has_url free_pattern (clean content) /\
  has_dashboard_url content /\
  extract content = Some (Prioritized, [url]) /\
  exists urls,
    extract content = Some (Prioritized, urls) /\
    (forall u, In u urls <->
               exists p, In p tunnel_patterns /\ fullmatch p u = true /\
                         occurs u (clean content)) /\
    (forall u, fullmatch free_pattern u = true -> occurs u (clean content) ->
               In u urls /\ tier_of u = Some Free) /\
    (exists u, In u urls /\ tier_of u = Some Free) /\
    (forall u, In u urls -> tier_of u <> None) /\
    (findall pro_pattern (clean content) = [] ->
     findall legacy_pattern (clean content) = [] ->
     forall u, In u urls -> tier_of u = Some Free).
Proof.
  intros content url.
  assert (H : has_url free_pattern (clean content)).
  { exists url. split; [reflexivity|].
    apply contains_spec. reflexivity. }
  split; [exact H|].
  split; [left; apply contains_spec; reflexivity|].
  split; [reflexivity|].
  exact (proj2 (free_tier_extraction content) H).
Defined.

(** Two free-tier and two pro-tier URLs in the content: all four are
    printed, the free-tier URLs first. *)
Example free_and_pro_all_printed :
  printed (lit "https://p1.a.pinggy.link https://f1.a.free.pinggy.link https://p2.a.pinggy.link https://f2.a.free.pinggy.link") =
  [lit "https://f1.a.free.pinggy.link"; lit "https://f2.a.free.pinggy.link";
   lit "https://p1.a.pinggy.link"; lit "https://p2.a.pinggy.link"].
Proof. vm_compute. reflexivity. Qed.


(** An escape sequence in front of a URL takes the first letter of the
    URL with it, so a free-tier URL of the raw content need not be one
    of the cleaned content. *)
Example escape_swallows_url :
  let raw := ESC :: lit "[https://abc.a.free.pinggy.link" in
  clean raw = lit "ttps://abc.a.free.pinggy.link" /\ extract raw = None.
Proof. split; reflexivity. Qed.

(** The claim as the specification words it fails: with a pro-tier URL
    in the content next to the free-tier URL and the dashboard URL, the
    poll prints the pro-tier URL as well. *)
Lemma only_free_tier_counterexample :
  ~ (forall content,
        has_url free_pattern content -> has_dashboard_url content ->
        forall u, In u (printed content) -> tier_of u = Some Free).
Proof.
  intros H.
  specialize (H (lit "https://abc.a.free.pinggy.link https://xyz.a.pinggy.link https://dashboard.pinggy.io/x")).
  assert (Hf : has_url free_pattern
                 (lit "https://abc.a.free.pinggy.link https://xyz.a.pinggy.link https://dashboard.pinggy.io/x")).
  { exists (lit "https://abc.a.free.pinggy.link"). split; [reflexivity|].
    apply contains_spec. reflexivity. }
  assert (Hd : has_dashboard_url
                 (lit "https://abc.a.free.pinggy.link https://xyz.a.pinggy.link https://dashboard.pinggy.io/x")).
  { left. apply contains_spec. reflexivity. }
  specialize (H Hf Hd (lit "https://xyz.a.pinggy.link")).
  assert (Hin : In (lit "https://xyz.a.pinggy.link")
                   (printed (lit "https://abc.a.free.pinggy.link https://xyz.a.pinggy.link https://dashboard.pinggy.io/x"))).
  { right. left. reflexivity. }
  apply H in Hin. discriminate Hin.
Qed.

(* ================================================================== *)
(** * The polling loop *)
(* ================================================================== *)

Lemma extract_none (content : str) :
  extract content = None <->
  unique_urls (clean content) = [] /\ tunnel_urls (clean content) = [].
Proof.
  unfold extract.
  destruct (unique_urls (clean content)); [|split; [discriminate|]; intros [H _]; discriminate].
  destruct (tunnel_urls (clean content)); split; auto; try discriminate.
  intros [_ H]. discriminate.
Qed.

Lemma poll_nothing (r : read_result) (out : nat -> option exn) :
  finds_nothing r ->
  exists evs, poll r out = (evs, inr false) /\ prints evs = [].
Proof.
  destruct r as [content|e]; simpl; intros H.
  - apply extract_none in H. destruct H as [-> ->]. eauto.
  - destruct e; try discriminate H; simpl; eauto.
Qed.

(** A poll that returns has printed the heading, the URLs of [extract]
    and an empty line. *)
Lemma printed_urls_app (t1 t2 : list event) :
  printed_urls (t1 ++ t2) = printed_urls t1 ++ printed_urls t2.
Proof. apply flat_map_app. Qed.

Lemma print_lines_done (out : nat -> option exn) (lines : list str) :
  forall k evs, print_lines out k lines = (evs, None) -> evs = map Print lines.
Proof.
  induction lines as [|line lines IH]; intros k evs; cbn [print_lines map].
  - intros H. injection H as <-. reflexivity.
  - destruct (out k) as [e|]; [discriminate|].
    destruct (print_lines out (S k) lines) as [rest r] eqn:E.
    intros H. injection H as <- ->. f_equal. exact (IH _ _ E).
Qed.

Lemma caught_goes_on (e : exn) : snd (caught e) <> inr true.
Proof. destruct e; simpl; discriminate. Qed.

Lemma announce_returns (out : nat -> option exn) (fmt : string)
      (urls : list str) (evs : list event) :
  announce out fmt urls = (evs, inr true) ->
  evs = Log INFO fmt [VList urls] :: map Print (url_block urls).
Proof.
  unfold announce.
  destruct (print_lines out 0 (url_block urls)) as [pevs [e|]] eqn:E.
  - pose proof (caught_goes_on e) as C.
    destruct (caught e) as [handled r]. intros H. injection H as _ ->.
    exfalso. apply C. reflexivity.
  - intros H. injection H as <-. f_equal. exact (print_lines_done _ _ _ E).
Qed.

Lemma printed_urls_block (urls : list str) :
  printed_urls (map Print (url_block urls)) = urls.
Proof.
  unfold url_block. cbn [map]. rewrite map_app, map_map.
  change (printed_urls (Print (lit nl ++ lit "Tunnel URLs:") :: ?l))
    with (printed_urls l).
  change (Print (lit nl ++ lit "Tunnel URLs:") ::
          map (fun x => Print (lit "  " ++ x)) urls ++ map Print [[]])
    with ([Print (lit nl ++ lit "Tunnel URLs:")] ++
          map (fun x => Print (lit "  " ++ x)) urls ++ map Print [[]]).
  rewrite !printed_urls_app.
  change (printed_urls [Print (lit nl ++ lit "Tunnel URLs:")]) with (@nil str).
  change (printed_urls (map Print [[]])) with (@nil str).
  rewrite app_nil_r. simpl.
  induction urls as [|u urls IH]; simpl; [reflexivity|]. f_equal. exact IH.
Qed.

Lemma poll_found (content : str) (out : nat -> option exn) (evs : list event) :
  poll (Content content) out = (evs, inr true) ->
  exists p urls, extract content = Some (p, urls) /\ printed_urls evs = urls.
Proof.
  unfold poll, extract.
  destruct (unique_urls (clean content)) as [|u us].
  - destruct (tunnel_urls (clean content)) as [|t ts]; [discriminate|].
    destruct (announce out _ (t :: ts)) as [aevs r] eqn:A.
    intros H. injection H as <- ->. apply announce_returns in A. subst aevs.
    exists Fallback, (t :: ts). split; [reflexivity|].
    exact (printed_urls_block (t :: ts)).
  - destruct (announce out _ (u :: us)) as [aevs r] eqn:A.
    intros H. injection H as <- ->. apply announce_returns in A. subst aevs.
    exists Prioritized, (u :: us). split; [reflexivity|].
    exact (printed_urls_block (u :: us)).
Qed.

Section ScraperFacts.
Variable w : sink_world.
Variable timeout : N.

Lemma pingy_out_loop_eq (fuel i : nat) (elapsed : N) :
  pingy_out_loop w timeout fuel i elapsed =
  if elapsed <? timeout * hz w then
    match fuel with
    | O => None
    | S fuel' =>
        let head := [Sleep 2; Log INFO "Checking for URL..." []] in
        match poll (sink w i) (stdout w i) with
        | (evs, inr true) => Some (head ++ evs, inr FOUND)
        | (evs, inl e) => Some (head ++ evs, inl e)
        | (evs, inr false) =>
            match pingy_out_loop w timeout fuel' (S i)
                    (elapsed + 2 * hz w + lag w i) with
            | Some (rest, r) => Some (head ++ evs ++ rest, r)
            | None => None
            end
        end
    end
  else Some (timeout_events, inr TIMED_OUT).
Proof. destruct fuel; reflexivity. Qed.

(** The loop ends: with two time units per turn the fuel lasts until
    the condition of the [while] fails. *)
Lemma pingy_out_loop_total (fuel : nat) :
  forall i elapsed,
    timeout * hz w <= elapsed + N.of_nat fuel * (2 * hz w) ->
    pingy_out_loop w timeout fuel i elapsed <> None.
Proof.
  induction fuel as [|fuel IH]; intros i elapsed Hf;
    rewrite pingy_out_loop_eq;
    destruct (N.ltb_spec elapsed (timeout * hz w)) as [Hlt|Hge];
    try discriminate.
  - lia.
  - cbv zeta. destruct (poll (sink w i) (stdout w i)) as [evs [e|[|]]]; try discriminate.
    specialize (IH (S i) (elapsed + 2 * hz w + lag w i)).
    destruct (pingy_out_loop w timeout fuel (S i) _) as [[rest r]|];
      [discriminate|].
    apply IH. lia.
Qed.

Lemma pingy_out_total : pingy_out w timeout <> None.
Proof.
  unfold pingy_out. apply pingy_out_loop_total. lia.
Qed.

Hypothesis nothing : forall i, finds_nothing (sink w i).

Lemma pingy_out_loop_timeout (fuel : nat) :
  forall i elapsed,
    timeout * hz w <= elapsed + N.of_nat fuel * (2 * hz w) ->
    exists evs,
      pingy_out_loop w timeout fuel i elapsed = Some (evs, inr TIMED_OUT) /\
      prints evs = prints timeout_events.
Proof.
  induction fuel as [|fuel IH]; intros i elapsed Hf;
    rewrite pingy_out_loop_eq;
    destruct (N.ltb_spec elapsed (timeout * hz w)) as [Hlt|Hge];
    eauto.
  - lia.
  - cbv zeta.
    destruct (@poll_nothing (sink w i) (stdout w i) (nothing i)) as (evs & -> & Hp).
    destruct (IH (S i) (elapsed + 2 * hz w + lag w i)) as (rest & -> & Hr);
      [lia|].
    eexists. split; [reflexivity|].
    unfold prints in *. rewrite !flat_map_app, Hp, Hr. reflexivity.
Qed.
End ScraperFacts.

Lemma prints_printed_urls (t : list event) :
  printed_urls t =
  flat_map (fun line => match line with 32 :: 32 :: url => [url] | _ => [] end)
           (prints t).
Proof.
  unfold printed_urls, prints.
  induction t as [|ev t IH]; [reflexivity|].
  destruct ev; cbn [flat_map app]; rewrite IH; reflexivity.
Qed.

(** C6. When every poll of the timeout window finds no URL (the sink is
    missing, unreadable, or holds no match), the scraper ends by itself
    in the state [TIMED_OUT]: it returns, the only thing it prints is
    the timeout message, and it prints no URL.  No exception leaves it:
    the read errors are caught inside the loop. *)
Theorem scraper_timeout (w : sink_world) (timeout : N) :
  (forall i, finds_nothing (sink w i)) ->
  exists evs,
    pingy_out w timeout = Some (evs, inr TIMED_OUT) /\
    prints evs = [lit nl ++ lit "Timeout reached, URL not found." ++ lit nl] /\
    printed_urls evs = [].
Proof.
  intros H.
  destruct (@pingy_out_loop_timeout w timeout H (S (N.to_nat timeout)) 0%nat 0)
    as (evs & E & P); [lia|].
  exists evs. split; [exact E|]. split; [exact P|].
  rewrite prints_printed_urls, P. reflexivity.
Qed.

Lemma scraper_timeout_witness :
  let w := {| hz := 1000;
              sink := fun i => if Nat.even i then Failed FileNotFoundError
                               else Content (lit "Permission denied");
              stdout := fun _ _ => None;
              lag := fun _ => 7 |} in
  (forall i, finds_nothing (sink w i)) /\
  exists evs,
    pingy_out w default_timeout = Some (evs, inr TIMED_OUT) /\
    prints evs = [lit nl ++ lit "Timeout reached, URL not found." ++ lit nl] /\
    printed_urls evs = [].
Proof.
  intros w.
  assert (H : forall i, finds_nothing (sink w i))
    by (intros i; simpl; destruct (Nat.even i); reflexivity).
  split; [exact H|].
  exact (@scraper_timeout w default_timeout H).
Defined.

(** With the default timeout and a sink that stays empty the scraper
    polls fifteen times. *)
Example scraper_default_polls :
  let w := {| hz := 1; sink := fun _ => Content [];
              stdout := fun _ _ => None; lag := fun _ => 0 |} in
  option_map
    (fun r => length (filter (fun ev => match ev with Sleep _ => true | _ => false end)
                             (fst r)))
    (pingy_out w default_timeout) = Some 15%nat.
Proof. reflexivity. Qed.

(* ================================================================== *)
(** * The coordinator *)
(* ================================================================== *)



(** Unfold a run of the coordinator and split on how each step ends and
    on whether the handler catches what was raised. *)
Ltac coordinator_cases R w :=
  unfold run_runn, runn, try_finally, try_except, bind, step, os_system in R;
  repeat
    (cbn [trace files running] in R;
     match type of R with
     | context [ending w ?ev] =>
         let E := fresh "E" in
         destruct (ending w ev) as [?e|] eqn:E; try rewrite E in R
     | context [if is_KeyboardInterrupt ?e then _ else _] =>
         let C := fresh "C" in
         destruct (is_KeyboardInterrupt e) eqn:C; try rewrite C in R
     end);
  cbn [fst snd trace files running app] in R;
  injection R as <- <-;
  cbn [fst snd trace files running].


(** The claim as the specification words it fails.  After an interrupt
    the coordinator returns without having ended or joined the selector,
    whose next mechanism creates the sink again. *)
Lemma runn_leaves_sink_counterexample :
  ~ (forall w fs, ~ In output_file (after_return w (snd (run_runn w fs)))).
Proof.
  intros H.
  apply (H (sink_recreated interrupt_at_join) [in_cache "pigy.log"]).
  vm_compute. left. reflexivity.
Qed.

(** And it fails on the normal way out as well when [rm] fails:
    [os.system] gives the status back and [runn] drops it. *)
Example runn_rm_fails :
  run_runn (rm_fails (fun _ => None)) [in_cache "pigy.log"] =
  (inr tt,
   {| files := [output_file; in_cache "pigy.log"];
      trace := [Start "webui"; Start "pingy_in"; Start "pingy_out";
                Join "webui"; Join "pingy_in"; Join "pingy_out";
                Run (Shell remove_sink)];
      running := [] |}).
Proof. vm_compute. reflexivity. Qed.



(** Nothing disturbs the run: the coordinator returns after the joins
    and the cleanup. *)
Example runn_completes :
  runn (sink_created (fun _ => None)) log_only =
  (inr tt,
   {| files := [in_cache "pigy.log"];
      trace := [Start "webui"; Start "pingy_in"; Start "pingy_out";
                Join "webui"; Join "pingy_in"; Join "pingy_out";
                Run (Shell remove_sink)];
      running := [] |}).
Proof. vm_compute. reflexivity. Qed.

(** An interrupt while the web UI is joined: the handler and then the
    cleanup remove the sink, and the coordinator returns; no child has
    been joined or ended. *)
Example runn_interrupted :
  runn (sink_created interrupt_at_join) log_only =
  (inr tt,
   {| files := [in_cache "pigy.log"];
      trace := [Start "webui"; Start "pingy_in"; Start "pingy_out";
                Join "webui"; Log INFO "^C" []; Print (lit "^C");
                Run (Shell remove_sink); Run (Shell remove_sink)];
      running := ["webui"; "pingy_in"; "pingy_out"]%string |}).
Proof. vm_compute. reflexivity. Qed.

(** The third child cannot be started: the error leaves the coordinator
    after the cleanup. *)
Example runn_fails :
  runn (sink_created (fun ev => match ev with
                                | Start "pingy_out" => Some OtherError
                                | _ => None
                                end)) log_only =
  (inl OtherError,
   {| files := [in_cache "pigy.log"];
      trace := [Start "webui"; Start "pingy_in"; Start "pingy_out";
                Run (Shell remove_sink)];
      running := ["webui"; "pingy_in"; "pingy_out"]%string |}).
Proof. vm_compute. reflexivity. Qed.

(* ================================================================== *)
(** * The selector *)
(* ================================================================== *)

Lemma tunnel_commands_differ (local_port : Z) :
  sshpass_command local_port <> expect_command /\
  sshpass_command local_port <> pipe_command local_port /\
  sshpass_command local_port <> noauth_command local_port /\
  expect_command <> pipe_command local_port /\
  expect_command <> noauth_command local_port /\
  pipe_command local_port <> noauth_command local_port.
Proof.
  unfold sshpass_command, expect_command, pipe_command, noauth_command,
    ssh_forward.
  repeat split; simpl; discriminate.
Qed.

(** Unfold a run of the selector and split on what the system answers
    to each command and to the write of the expect script, and on
    whether the [except] clause at hand catches the answer. *)
Ltac selector_unfold :=
  unfold run_pingy_in, pingy_in, method1, method2, method3, method4,
    bind, try_except, subprocess_run, write_text, log, modify, ret, snoc,
    probe.

Ltac selector_cases R w :=
  repeat
    (cbn beta iota zeta in R;
     match type of R with
     | context [proc w ?c] =>
         let E := fresh "E" in
         destruct (proc w c) as [?e|] eqn:E; try rewrite E in R
     | context [write w ?f] =>
         let E := fresh "E" in
         destruct (write w f) as [?e|] eqn:E; try rewrite E in R
     | context [if is_process_or_not_found ?e then _ else _] =>
         let C := fresh "C" in
         destruct (is_process_or_not_found e) eqn:C; try rewrite C in R
     | context [if is_CalledProcessError ?e then _ else _] =>
         let C := fresh "C" in
         destruct (is_CalledProcessError e) eqn:C; try rewrite C in R
     | context [if is_Exception ?e then _ else _] =>
         let C := fresh "C" in
         destruct (is_Exception e) eqn:C; try rewrite C in R
     end);
  injection R as <- <-;
  cbn [commands flat_map app fst snd].

(** The goals left by the case analysis. *)
Ltac selector_facts :=
  repeat
    match goal with
    | |- _ /\ _ => split
    | |- forall _, _ => intro
    | |- ~ _ => intro
    | H : Some _ = Some _ |- _ => injection H as H; subst
    | H : Some _ = None |- _ => discriminate H
    | H : None = Some _ |- _ => discriminate H
    | H : In _ (_ :: _) |- _ => destruct H as [H|H]; [try subst|]
    | H : In _ [] |- _ => destruct H
    | H : _ /\ _ |- _ => destruct H
    | H : ?a = ?b, H' : ?a = ?c |- _ => rewrite H in H'
    end;
  try congruence;
  try (cbn; tauto);
  try (repeat first [apply subseq_nil | apply subseq_take | apply subseq_skip]);
  try (repeat constructor; cbn;
       let X := fresh "X" in
       intros X; repeat (destruct X as [X|X]; [congruence|]); destruct X).

(** Abstract the four command lines, keeping only that they differ. *)
Ltac selector_abstract local_port :=
  let D := fresh "D" in
  pose proof (tunnel_commands_differ local_port) as D;
  destruct D as (? & ? & ? & ? & ? & ?);
  generalize dependent (sshpass_command local_port);
  generalize dependent (pipe_command local_port);
  generalize dependent (noauth_command local_port);
  generalize dependent expect_command;
  intros.

(** The goals left by the case analysis, with what the system answered
    put into the tests of the statement. *)
Ltac selector_answers :=
  cbn beta iota;
  repeat match goal with
         | C : ?t = _ |- context [?t] => rewrite C
         end;
  cbn [andb orb]; unfold iff.

(** C3. The selector tries the mechanisms in the order of the script,
    each one exactly when the ones before it have failed in a way
    their [except] clauses catch.  The commands it runs are, in this
    order, some of the commands of the script, the probe for sshpass
    always the first.  The sshpass command is run exactly when that
    probe succeeds; the probe for expect exactly when method 1 has
    fallen through; the expect command exactly when moreover this probe
    and the write of the script succeed; the echo pipe exactly when
    methods 1 and 2 have fallen through; the command without [auth]
    exactly when method 3 has fallen through as well.  So a mechanism
    whose probe fails never has its tunnel command run, and the first
    tunnel command that succeeds is the last command run and the
    selector returns. *)
Theorem selector_priority_order (w : auth_world) (local_port : Z) :
  let out := run_pingy_in w local_port in
  let cmds := commands (snd out) in
  subseq cmds (schedule local_port) /\
  (forall e, proc w (probe "sshpass") = Some e ->
        ~ In (Shell (sshpass_command local_port)) cmds /\
        (is_process_or_not_found e = true -> In (probe "expect") cmds)) /\
  (forall e, proc w (probe "expect") = Some e -> In (probe "expect") cmds ->
        ~ In (Shell expect_command) cmds /\
        (is_process_or_not_found e = true ->
         In (Shell (pipe_command local_port)) cmds)) /\
  (forall c, In c (mechanisms local_port) -> In c cmds -> proc w c = None ->
        fst out = inr tt /\ last cmds c = c) /\
  hd_error cmds = Some (probe "sshpass") /\
  (In (Shell (sshpass_command local_port)) cmds <->
   went_well (proc w (probe "sshpass")) = true) /\
  (In (probe "expect") cmds <-> method1_falls_through w local_port = true) /\
  (In (Shell expect_command) cmds <->
   method1_falls_through w local_port = true /\
   went_well (proc w (probe "expect")) = true /\
   went_well (write w (in_cache "expect_script.exp")) = true) /\
  (In (Shell (pipe_command local_port)) cmds <->
   method1_falls_through w local_port = true /\
   method2_falls_through w = true) /\
  (In (Shell (noauth_command local_port)) cmds <->
   method1_falls_through w local_port = true /\
   method2_falls_through w = true /\
   method3_falls_through w local_port = true).
Proof.
  cbv zeta. destruct (run_pingy_in w local_port) as [r t] eqn:R.
  unfold schedule, mechanisms, method1_falls_through, method2_falls_through,
    method3_falls_through, went_well, caught12, caught3.
  selector_unfold. revert R. selector_unfold.
  selector_abstract local_port.
  selector_cases R w.
  all: selector_answers.
  all: selector_facts.
Qed.

Lemma selector_priority_order_witness :
  let installed :=
    {| proc := fun c =>
                 match c with
                 | Argv _ => None
                 | Shell _ => Some CalledProcessError
                 end;
       write := fun _ => None |} in
  (commands (snd (run_pingy_in nothing_works 7860)) =
     [probe "sshpass"; probe "expect";
      Shell (pipe_command 7860); Shell (noauth_command 7860)] /\
   ~ In (Shell (sshpass_command 7860))
        (commands (snd (run_pingy_in nothing_works 7860))) /\
   In (probe "expect") (commands (snd (run_pingy_in nothing_works 7860)))) /\
  (commands (snd (run_pingy_in installed 7860)) = schedule 7860 /\
   In (Shell (sshpass_command 7860))
      (commands (snd (run_pingy_in installed 7860))) /\
   In (Shell (noauth_command 7860))
      (commands (snd (run_pingy_in installed 7860)))).
Proof.
  intros installed. split.
  - split; [reflexivity|].
    pose proof (proj1 (proj2 (selector_priority_order nothing_works 7860))
                  CalledProcessError eq_refl) as [H1 H2].
    split; [exact H1 | exact (H2 eq_refl)].
  - split; [reflexivity|].
    destruct (selector_priority_order installed 7860)
      as (_ & _ & _ & _ & _ & H6 & _ & _ & _ & H10).
    split.
    + apply H6. reflexivity.
    + apply H10. repeat split; reflexivity.
Defined.

(** C8, as the code has it.  No command is run twice.  Once method 4 is
    reached its command is the last one run and the selector returns
    whatever [Exception] the call raises: when the call raises nothing
    the run ends with the call (nothing is logged after it: success),
    otherwise with an error line.  The selector as a whole returns
    whenever methods 1 to 3 meet only the failures their [except]
    clauses name.  Any other exception leaves [pingy_in]: one that is
    neither a process error nor a missing executable, raised by a probe,
    by the write of the expect script or by the tunnel command of
    method 1 or 2; one that is no process error, raised by the echo
    pipe; one that is no [Exception], raised by the command of method
    4. *)
Theorem final_fallback (w : auth_world) (local_port : Z) :
  let out := run_pingy_in w local_port in
  let cmds := commands (snd out) in
  let noauth := Shell (noauth_command local_port) in
  NoDup cmds /\
  (In noauth cmds ->
   last cmds noauth = noauth /\
   (proc w noauth = None ->
    fst out = inr tt /\ last (snd out) (Run noauth) = Run noauth) /\
   (forall e, proc w noauth = Some e -> is_Exception e = true ->
         fst out = inr tt /\
         exists fmt, last (snd out) (Run noauth) = Log ERROR fmt [VExn e])) /\
  (expected_failures w local_port -> fst out = inr tt) /\
  (forall c e,
      In c [probe "sshpass"; Shell (sshpass_command local_port);
            probe "expect"; Shell expect_command] ->
      In c cmds -> proc w c = Some e -> is_process_or_not_found e = false ->
      fst out = inl e /\ last cmds c = c) /\
  (forall e, In (probe "expect") cmds -> proc w (probe "expect") = None ->
        write w (in_cache "expect_script.exp") = Some e ->
        is_process_or_not_found e = false ->
        fst out = inl e /\ last cmds (probe "expect") = probe "expect") /\
  (forall e, In (Shell (pipe_command local_port)) cmds ->
        proc w (Shell (pipe_command local_port)) = Some e ->
        is_CalledProcessError e = false ->
        fst out = inl e /\
        last cmds (Shell (pipe_command local_port)) =
          Shell (pipe_command local_port)) /\
  (forall e, In noauth cmds -> proc w noauth = Some e ->
        is_Exception e = false -> fst out = inl e).
Proof.
  cbv zeta. destruct (run_pingy_in w local_port) as [r t] eqn:R.
  unfold expected_failures. selector_unfold. revert R. selector_unfold.
  selector_abstract local_port.
  selector_cases R w.
  all: split;
    [ selector_facts
    | split;
      [ intro; selector_facts; try (eexists; reflexivity)
      | split;
        [ intros (X1 & X2 & X3 & X4); try reflexivity; exfalso;
          repeat match goal with
            | X : forall e, Some ?a = Some e -> _ |- _ =>
                pose proof (X a eq_refl); clear X
            | X : forall c e, In c _ -> _, E : proc _ ?c = Some ?e |- _ =>
                assert (is_process_or_not_found e = true)
                  by (apply (X c e); [cbn; tauto|exact E]);
                clear E
            end;
          congruence
        | selector_facts ] ] ].
Qed.

Lemma final_fallback_witness :
  let out := run_pingy_in nothing_works 7860 in
  expected_failures nothing_works 7860 /\
  fst out = inr tt /\
  last (snd out) (Run (probe "sshpass")) =
    Log ERROR "All methods failed: {e}" [VExn CalledProcessError] /\
  fst (run_pingy_in fork_fails 7860) = inl OtherError.
Proof.
  assert (H : expected_failures nothing_works 7860).
  { repeat split; intros; simpl in *;
      repeat match goal with
        | E : Some _ = Some _ |- _ => injection E as <-
        | E : None = Some _ |- _ => discriminate E
        end; reflexivity. }
  split; [exact H|].
  split; [exact (proj1 (proj2 (proj2 (final_fallback nothing_works 7860))) H)|].
  split; [reflexivity|].
  destruct (final_fallback fork_fails 7860) as (_ & _ & _ & _ & _ & H6 & _).
  apply (H6 OtherError); [vm_compute; tauto|reflexivity|reflexivity].
Defined.

(** The claim as the specification words it fails: an error that the
    [except] clause of method 3 does not name leaves the selector. *)
Lemma selector_propagates_counterexample :
  ~ (forall w local_port,
        (forall c e, proc w c = Some e -> is_Exception e = true) ->
        (forall f e, write w f = Some e -> is_Exception e = true) ->
        fst (run_pingy_in w local_port) = inr tt).
Proof.
  intros H. specialize (H fork_fails 7860%Z).
  assert (E : fst (run_pingy_in fork_fails 7860) = inl OtherError)
    by reflexivity.
  rewrite H in E.
  - discriminate E.
  - intros [args|cmdline] e; simpl.
    + intros X. injection X as <-. reflexivity.
    + destruct (prefix "echo" cmdline); [|discriminate].
      intros X. injection X as <-. reflexivity.
  - intros f e. simpl. discriminate.
Qed.

(* ================================================================== *)
(** * More on cleaning *)
(* ================================================================== *)

Lemma subseq_refl {A : Type} (l : list A) : subseq l l.
Proof. induction l; constructor; assumption. Qed.

Lemma subseq_trans {A : Type} (l1 l2 l3 : list A) :
  subseq l1 l2 -> subseq l2 l3 -> subseq l1 l3.
Proof.
  intros H12 H23. revert l1 H12.
  induction H23 as [l|x l2 l3 H IH|x l2 l3 H IH]; intros l1 H12.
  - inversion H12. constructor.
  - inversion H12; subst.
    + constructor.
    + apply subseq_take. apply IH. assumption.
    + apply subseq_skip. apply IH. assumption.
  - apply subseq_skip. apply IH. assumption.
Qed.

Lemma sub_from_subseq (r : regex) (s : str) :
  forall skip, subseq (sub_from r skip s) s.
Proof.
  induction s as [|c s IH]; intros skip; simpl.
  - constructor.
  - destruct skip as [|k]; [|apply subseq_skip, IH].
    destruct (match_len r (c :: s)) as [[|n]|].
    + apply subseq_take, IH.
    + apply subseq_skip, IH.
    + apply subseq_take, IH.
Qed.

(** X1. Cleaning only deletes: the cleaned content is the content with
    some characters left out, none changed, added or moved. *)
Theorem clean_only_deletes (content : str) : subseq (clean content) content.
Proof.
  unfold clean, sub.
  apply subseq_trans with (l2 := sub_from ansi_escape 0 content);
    apply sub_from_subseq.
Qed.

Lemma in_range_within (lo hi lo' hi' c : char) :
  lo' <= lo -> hi <= hi' -> in_range lo hi c = true -> in_range lo' hi' c = true.
Proof.
  unfold in_range. rewrite !andb_true_iff, !N.leb_le. lia.
Qed.

Lemma forallb_in_range_within (lo hi lo' hi' : char) (m : str) :
  lo' <= lo -> hi <= hi' ->
  forallb (in_range lo hi) m = true -> forallb (in_range lo' hi') m = true.
Proof.
  intros H1 H2. rewrite !forallb_forall. intros H c Hc.
  apply (@in_range_within lo hi lo' hi' c H1 H2), H, Hc.
Qed.

(** An escape sequence is the escape character followed by printable
    ASCII characters. *)
Lemma lang_ansi_escape (m : str) :
  lang ansi_escape m ->
  exists body, m = ESC :: body /\ forallb (in_range 32 126) body = true.
Proof.
  unfold ansi_escape. simpl lang.
  intros (m1 & m2 & -> & -> & [(c & -> & Hc) | H]).
  - exists [c]. split; [reflexivity|]. simpl. rewrite andb_true_r.
    apply orb_true_iff in Hc. destruct Hc as [Hc|Hc];
      revert Hc; apply in_range_within; vm_compute; discriminate.
  - destruct H as (b1 & r1 & -> & -> & p & r2 & -> & Hp & q & f & -> & Hq
                   & c & -> & Hc).
    exists ([ch "["] ++ p ++ q ++ [c]). split; [reflexivity|].
    rewrite !forallb_app. simpl. rewrite andb_true_r.
    assert (Hp' : forallb (in_range 32 126) p = true)
      by (revert Hp; apply forallb_in_range_within; vm_compute; discriminate).
    assert (Hq' : forallb (in_range 32 126) q = true)
      by (revert Hq; apply forallb_in_range_within; vm_compute; discriminate).
    assert (Hc' : in_range 32 126 c = true)
      by (revert Hc; apply in_range_within; vm_compute; discriminate).
    rewrite Hp', Hq', Hc'. reflexivity.
Qed.

(** Removing matches leaves alone the characters no match can hold. *)
Lemma sub_from_keeps (r : regex) (keep : char -> bool) :
  (forall m, lang r m -> forallb (fun c => negb (keep c)) m = true) ->
  forall s skip,
    filter keep (sub_from r skip s) = filter keep (skipn skip s).
Proof.
  intros Hr. induction s as [|c s IH]; intros skip.
  - destruct skip; reflexivity.
  - destruct skip as [|k]; [|apply IH].
    simpl sub_from. simpl skipn.
    destruct (match_len r (c :: s)) as [[|n]|] eqn:Hm.
    + simpl. rewrite (IH 0%nat). reflexivity.
    + apply match_len_sound in Hm. destruct Hm as (rest & _ & L & _).
      apply Hr in L. rewrite IH.
      transitivity (filter keep (firstn (S n) (c :: s) ++ skipn (S n) (c :: s)));
        [|rewrite firstn_skipn; reflexivity].
      rewrite filter_app.
      assert (E : filter keep (firstn (S n) (c :: s)) = []).
      { revert L. generalize (firstn (S n) (c :: s)). intros l.
        induction l as [|x l IHl]; simpl; [reflexivity|].
        intros H. apply andb_prop in H. destruct H as [Hx Hl].
        apply negb_true_iff in Hx. rewrite Hx. apply IHl, Hl. }
      rewrite E. reflexivity.
    + simpl. rewrite (IH 0%nat). reflexivity.
Qed.

(** X2. Cleaning keeps the line structure and all text beyond ASCII:
    the line feeds, tabs, carriage returns and non-ASCII characters of
    the cleaned content are those of the content, in the same order and
    number. *)
Theorem clean_keeps_untouched (content : str) :
  filter untouched (clean content) = filter untouched content.
Proof.
  unfold clean, sub.
  rewrite (@sub_from_keeps (Cls is_control) untouched).
  - simpl skipn. rewrite (@sub_from_keeps ansi_escape untouched).
    + reflexivity.
    + intros m L. apply lang_ansi_escape in L.
      destruct L as (body & -> & Hb). simpl.
      rewrite forallb_forall in Hb. apply forallb_forall.
      intros c Hc. unfold untouched. rewrite (Hb c Hc).
      rewrite andb_false_r. reflexivity.
  - intros m (c & -> & Hc). simpl. unfold untouched. rewrite Hc. reflexivity.
Qed.

Example clean_keeps_untouched_example :
  let raw := lit "a" ++ [9; 10] ++ ESC :: lit "[0m" ++ [233; 13; 10; 7] in
  clean raw = lit "a" ++ [9; 10; 233; 13; 10] /\
  filter untouched raw = [9; 10; 233; 13; 10].
Proof. split; reflexivity. Qed.

(* ================================================================== *)
(** * More on what one poll prints *)
(* ================================================================== *)

Lemma printed_matched (content u : str) :
  In u (printed content) ->
  exists p urls, extract content = Some (p, urls) /\ In u urls /\
                 In u (matched p (clean content)) /\
                 contains dashboard u = false.
Proof.
  unfold printed. destruct (extract content) as [[p urls]|] eqn:H; [|intros []].
  intros Hu. exists p, urls. split; [reflexivity|]. split; [exact Hu|].
  apply (@extract_in content p urls u H). exact Hu.
Qed.

Lemma lang_general (u : str) :
  lang general_pattern u ->
  exists sch host site tail,
    u = sch ++ host ++ site ++ tail /\
    (sch = lit "http://" \/ sch = lit "https://") /\
    host <> [] /\ forallb not_space_bracket host = true /\
    (site = lit "pinggy.link" \/ site = lit "pinggy.io") /\
    forallb not_space_bracket tail = true.
Proof.
  unfold general_pattern.
  change (lang (Cat scheme (Cat (Plus not_space_bracket)
            (Cat (Alt (text (lit "pinggy.link")) (text (lit "pinggy.io")))
                 (Star not_space_bracket)))) u)
    with (exists m1 m2, u = m1 ++ m2 /\ lang scheme m1 /\
          exists m3 m4, m2 = m3 ++ m4 /\
            (m3 <> [] /\ forallb not_space_bracket m3 = true) /\
            exists m5 m6, m4 = m5 ++ m6 /\
              (lang (text (lit "pinggy.link")) m5 \/
               lang (text (lit "pinggy.io")) m5) /\
              forallb not_space_bracket m6 = true).
  intros (m1 & m2 & -> & L1 & m3 & m4 & -> & [Hne H3] & m5 & m6 & -> & L5 & H6).
  apply lang_scheme in L1.
  exists m1, m3, m5, m6. repeat split; auto.
  destruct L5 as [L5|L5]; apply lang_text in L5; auto.
Qed.

(** A match of either path lies in the text and starts with the
    scheme. *)
Lemma matched_shape (p : path) (text u : str) :
  In u (matched p text) ->
  occurs u text /\
  exists sch rest, u = sch ++ rest /\
                   (sch = lit "http://" \/ sch = lit "https://").
Proof.
  destruct p; simpl.
  - rewrite found_urls_groups. intros H.
    assert (Hs : exists suffix, In u (findall (tunnel_pattern suffix) text)).
    { apply in_app_or in H. destruct H as [H|H];
        [|apply in_app_or in H; destruct H as [H|H]]; eauto. }
    destruct Hs as [suffix Hs]. apply findall_lang in Hs.
    destruct Hs as [L Ho]. split; [exact Ho|].
    apply lang_tunnel in L. destruct L as (sch & l & Hsch & _ & _ & ->).
    eauto.
  - unfold all_urls. intros H. apply findall_lang in H.
    destruct H as [L Ho]. split; [exact Ho|].
    apply lang_general in L.
    destruct L as (sch & host & site & tail & -> & Hsch & _). eauto.
Qed.

Lemma clean_text_occurs (u s : str) :
  clean_text s -> occurs u s -> clean_text u.
Proof.
  unfold clean_text. intros H (pre & post & ->).
  rewrite !forallb_app in H.
  apply andb_prop in H. destruct H as [_ H].
  apply andb_prop in H. tauto.
Qed.

(** X3. Whatever one poll prints is cut out of the cleaned content and
    starts with [http://] or [https://]; it holds no escape character
    and no other control character of the raw terminal output. *)
Theorem printed_url_from_clean_text (content u : str) :
  In u (printed content) ->
  occurs u (clean content) /\
  (starts_with (lit "http://") u = true \/
   starts_with (lit "https://") u = true) /\
  clean_text u.
Proof.
  intros H. apply printed_matched in H.
  destruct H as (p & urls & _ & _ & Hm & _).
  apply matched_shape in Hm. destruct Hm as (Ho & sch & rest & -> & Hsch).
  split; [exact Ho|]. split.
  - destruct Hsch as [-> | ->]; [left|right];
      apply starts_with_spec; eauto.
  - apply (@clean_text_occurs _ (clean content));
      [apply clean_gives_clean_text|exact Ho].
Qed.

Lemma printed_url_from_clean_text_witness :
  let content :=
    ESC :: lit "[1mURL:" ++ ESC :: lit "[0m https://ab" ++ [7] ++
    lit "c.a.free.pinggy.link" ++ [13; 10] in
  let u := lit "https://abc.a.free.pinggy.link" in
  printed content = [u] /\
  occurs u (clean content) /\
  (starts_with (lit "http://") u = true \/
   starts_with (lit "https://") u = true) /\
  clean_text u.
Proof.
  intros content u. split; [reflexivity|].
  apply (@printed_url_from_clean_text content u). left. reflexivity.
Defined.

(** X4. A URL printed on the fallback path holds no white space and no
    closing bracket, and holds [pinggy.link] or [pinggy.io] after a
    non-empty start of the host. *)
Theorem fallback_url_shape (content : str) (urls : list str) (u : str) :
  extract content = Some (Fallback, urls) -> In u urls ->
  forallb not_space_bracket u = true /\
  exists sch host site tail,
    u = sch ++ host ++ site ++ tail /\
    (sch = lit "http://" \/ sch = lit "https://") /\
    host <> [] /\
    (site = lit "pinggy.link" \/ site = lit "pinggy.io").
Proof.
  intros H Hu. apply (@extract_in content Fallback urls u H) in Hu.
  destruct Hu as [Hu _]. simpl in Hu. unfold all_urls in Hu.
  apply findall_lang in Hu. destruct Hu as [L _].
  apply lang_general in L.
  destruct L as (sch & host & site & tail & -> & Hsch & Hne & Hh & Hsite & Ht).
  split; [|exists sch, host, site, tail; auto].
  rewrite !forallb_app, Hh, Ht.
  destruct Hsch as [-> | ->], Hsite as [-> | ->]; reflexivity.
Qed.

Lemma fallback_url_shape_witness :
  let content := lit "[see https://abc.pinggy.io/path?x=1] now" in
  let u := lit "https://abc.pinggy.io/path?x=1" in
  extract content = Some (Fallback, [u]) /\
  forallb not_space_bracket u = true /\
  exists sch host site tail,
    u = sch ++ host ++ site ++ tail /\
    (sch = lit "http://" \/ sch = lit "https://") /\
    host <> [] /\
    (site = lit "pinggy.link" \/ site = lit "pinggy.io").
Proof.
  intros content u. split; [reflexivity|].
  apply (@fallback_url_shape content [u] u); [reflexivity|left; reflexivity].
Defined.

(** A text that holds a URL of a tunnel pattern gives [findall] a match
    of that pattern, and no such match holds the dashboard host. *)
Lemma tunnel_url_found (suffix : string) (text : str) :
  In suffix [free_suffix; pro_suffix; legacy_suffix] ->
  has_url (tunnel_pattern suffix) text ->
  exists m, In m (findall (tunnel_pattern suffix) text) /\
            contains dashboard m = false.
Proof.
  intros Hs (u & F & pre & post & ->).
  apply fullmatch_lang in F.
  pose proof (@findall_nonempty (tunnel_pattern suffix) pre u post F) as Hne.
  destruct (findall (tunnel_pattern suffix) (pre ++ u ++ post)) as [|m ms] eqn:E;
    [congruence|].
  exists m. split; [left; reflexivity|].
  assert (Hm : In m (findall (tunnel_pattern suffix) (pre ++ u ++ post)))
    by (rewrite E; left; reflexivity).
  apply findall_lang in Hm. destruct Hm as [L _].
  apply (@tunnel_not_dashboard suffix); assumption.
Qed.

(** X5. The fallback pattern is consulted exactly when the cleaned
    content holds no URL of a tunnel pattern: the poll takes the
    prioritized path if and only if some tunnel pattern matches a
    piece of the cleaned content. *)
Theorem prioritized_iff_tunnel_url (content : str) :
  (exists urls, extract content = Some (Prioritized, urls)) <->
  (exists p, In p tunnel_patterns /\ has_url p (clean content)).
Proof.
  split.
  - intros [urls H]. apply extract_prioritized in H. destruct H as [-> Hne].
    destruct (unique_urls (clean content)) as [|u us] eqn:E; [congruence|].
    assert (Hu : In u (unique_urls (clean content)))
      by (rewrite E; left; reflexivity).
    apply unique_of_in in Hu. destruct Hu as [Hu _].
    apply found_urls_in in Hu. destruct Hu as (p & Hp & Hu).
    exists p. split; [exact Hp|].
    apply findall_lang in Hu. destruct Hu as [L Ho].
    exists u. split; [apply fullmatch_lang; exact L|exact Ho].
  - intros (p & Hp & Hurl).
    pose proof Hp as Hp'. apply tunnel_patterns_suffix in Hp'.
    destruct Hp' as (suffix & Hs & ->).
    destruct (tunnel_url_found Hs Hurl) as (m & Hm & Hd).
    exists (unique_urls (clean content)).
    apply extract_prioritized. split; [reflexivity|].
    assert (Hin : In m (unique_urls (clean content))).
    { apply unique_of_in. split; [|exact Hd].
      apply found_urls_in. eauto. }
    intros E. rewrite E in Hin. destruct Hin.
Qed.

Lemma prioritized_iff_tunnel_url_witness :
  let content := lit "https://abc.pinggy.io/x and http://t.a.pinggy.link" in
  has_url pro_pattern (clean content) /\
  exists urls, extract content = Some (Prioritized, urls).
Proof.
  intros content.
  assert (H : has_url pro_pattern (clean content)).
  { exists (lit "http://t.a.pinggy.link"). split; [reflexivity|].
    apply contains_spec. reflexivity. }
  split; [exact H|].
  apply (proj2 (prioritized_iff_tunnel_url content)).
  exists pro_pattern. split; [simpl; tauto|exact H].
Defined.

(** A poll with a tunnel URL and a generic URL in the sink prints the
    tunnel URL only. *)
Example prioritized_hides_generic :
  extract (lit "https://abc.pinggy.io/x and http://t.a.pinggy.link")
  = Some (Prioritized, [lit "http://t.a.pinggy.link"]).
Proof. reflexivity. Qed.

Lemma found_urls_keeps (text u : str) :
  In u (found_urls text) -> keeps u = true.
Proof.
  intros H. apply found_urls_in in H. destruct H as (p & Hp & Hu).
  apply tunnel_patterns_suffix in Hp. destruct Hp as (suffix & Hs & ->).
  apply findall_lang in Hu. destruct Hu as [L _].
  unfold keeps. rewrite (@tunnel_not_dashboard suffix u Hs L). reflexivity.
Qed.

Lemma filter_all {A : Type} (f : A -> bool) (l : list A) :
  (forall x, In x l -> f x = true) -> filter f l = l.
Proof.
  induction l as [|x l IH]; intros H; [reflexivity|].
  simpl. rewrite (H x (or_introl eq_refl)). f_equal.
  apply IH. intros y Hy. apply H. right. exact Hy.
Qed.

(** X6. On the prioritized path the dashboard test never drops
    anything: no match of a tunnel pattern can hold
    [dashboard.pinggy.io], so [unique_urls] is just the matches, each
    where it is first seen. *)
Theorem prioritized_filter_is_idle (cleaned_content : str) :
  (forall u, In u (found_urls cleaned_content) ->
             contains dashboard u = false) /\
  unique_urls cleaned_content = first_seen (found_urls cleaned_content).
Proof.
  split.
  - intros u Hu. apply found_urls_keeps in Hu.
    unfold keeps in Hu. apply negb_true_iff in Hu. exact Hu.
  - unfold unique_urls. rewrite unique_of_first_seen.
    rewrite filter_all; [reflexivity|]. apply found_urls_keeps.
Qed.

(** X7. A sink without the letters [http] in its cleaned content gives
    the poll nothing to print: the loop goes on. *)
Theorem no_http_no_url (content : str) :
  contains (lit "http") (clean content) = false -> extract content = None.
Proof.
  intros H. destruct (extract content) as [[p urls]|] eqn:E; [|reflexivity].
  exfalso.
  assert (Hne : urls <> []).
  { destruct p; [apply extract_prioritized in E|apply extract_fallback in E];
      tauto. }
  destruct urls as [|u urls]; [congruence|].
  assert (Hu : In u (u :: urls)) by (left; reflexivity).
  apply (@extract_in content p (u :: urls) u E) in Hu.
  destruct Hu as [Hu _]. apply matched_shape in Hu.
  destruct Hu as ((pre & post & Ec) & sch & rest & -> & Hsch).
  assert (Ho : occurs (lit "http") (clean content)).
  { rewrite Ec. destruct Hsch as [-> | ->].
    - exists pre, (lit "://" ++ rest ++ post). reflexivity.
    - exists pre, (lit "s://" ++ rest ++ post). reflexivity. }
  apply contains_spec in Ho. congruence.
Qed.

Lemma no_http_no_url_witness :
  contains (lit "http") (clean (lit "ssh: connect to host a.pinggy.io port 80: Connection refused")) = false /\
  extract (lit "ssh: connect to host a.pinggy.io port 80: Connection refused") = None /\
  extract [] = None.
Proof.
  split; [reflexivity|]. split.
  - apply no_http_no_url. reflexivity.
  - apply no_http_no_url. reflexivity.
Defined.

Lemma first_seen_NoDup (l : list str) : NoDup l -> first_seen l = l.
Proof.
  induction 1 as [|x l Hx Hl IH]; [reflexivity|].
  simpl. rewrite IH. f_equal. apply notin_remove. exact Hx.
Qed.

(** X8. The de-duplication is idempotent: run on its own result, the
    loop that builds [unique_urls] returns that result. *)
Theorem unique_of_idempotent (found : list str) :
  unique_of (unique_of found) = unique_of found.
Proof.
  rewrite (unique_of_first_seen (unique_of found)).
  rewrite filter_all.
  - apply first_seen_NoDup, unique_of_NoDup.
  - intros x Hx. apply unique_of_in in Hx. destruct Hx as [_ Hx].
    unfold keeps. rewrite Hx. reflexivity.
Qed.

(* ================================================================== *)
(** * More on the polling loop *)
(* ================================================================== *)

Lemma sleeps_app (t1 t2 : list event) :
  sleeps (t1 ++ t2) = (sleeps t1 + sleeps t2)%nat.
Proof. unfold sleeps. rewrite filter_app, length_app. reflexivity. Qed.

Lemma prints_app (t1 t2 : list event) :
  prints (t1 ++ t2) = prints t1 ++ prints t2.
Proof. apply flat_map_app. Qed.

Lemma prints_map_Print (lines : list str) : prints (map Print lines) = lines.
Proof.
  induction lines as [|l lines IH]; [reflexivity|]. simpl. f_equal. exact IH.
Qed.

Lemma print_lines_quiet (out : nat -> option exn) (lines : list str) :
  forall k evs r, print_lines out k lines = (evs, r) -> sleeps evs = 0%nat.
Proof.
  induction lines as [|line lines IH]; intros k evs r; cbn [print_lines].
  - intros H. injection H as <- _. reflexivity.
  - destruct (out k) as [e|]; [intros H; injection H as <- _; reflexivity|].
    destruct (print_lines out (S k) lines) as [rest r'] eqn:E.
    intros H. injection H as <- _. exact (IH _ _ _ E).
Qed.

Lemma print_lines_raises (out : nat -> option exn) (lines : list str) :
  forall k evs e, print_lines out k lines = (evs, Some e) ->
                  exists j, out j = Some e.
Proof.
  induction lines as [|line lines IH]; intros k evs e; cbn [print_lines].
  - discriminate.
  - destruct (out k) as [e'|] eqn:O.
    + intros H. injection H as _ <-. eauto.
    + destruct (print_lines out (S k) lines) as [rest r'] eqn:E.
      intros H. injection H as _ ->. exact (IH _ _ _ E).
Qed.

(** The prints up to the first that raises are made. *)
Lemma print_lines_breaks (out : nat -> option exn) (e : exn) :
  forall lines k0 k,
    (k < length lines)%nat ->
    out (k0 + k)%nat = Some e ->
    (forall j, (j < k)%nat -> out (k0 + j)%nat = None) ->
    print_lines out k0 lines = (map Print (firstn k lines), Some e).
Proof.
  induction lines as [|line lines IH]; intros k0 k Hk Ho Hb;
    [simpl in Hk; lia|].
  cbn [print_lines]. destruct k as [|k].
  - rewrite Nat.add_0_r in Ho. rewrite Ho. reflexivity.
  - pose proof (Hb 0%nat ltac:(lia)) as H0. rewrite Nat.add_0_r in H0.
    rewrite H0. rewrite (IH (S k0) k).
    + reflexivity.
    + simpl in Hk. lia.
    + rewrite <- Ho. f_equal. lia.
    + intros j Hj. rewrite <- (Hb (S j)); [f_equal|]; lia.
Qed.

Lemma caught_facts (e : exn) :
  sleeps (fst (caught e)) = 0%nat /\ prints (fst (caught e)) = [] /\
  match snd (caught e) with
  | inr b => b = false /\ is_Exception e = true
  | inl e' => e' = e /\ is_Exception e = false /\ fst (caught e) = []
  end.
Proof. destruct e; simpl; auto. Qed.

(** What the lines of [if unique_urls:] can do: print the block and
    return, or meet an error of a print, which goes to the [except]
    clauses. *)
Lemma announce_facts (out : nat -> option exn) (fmt : string) (urls : list str) :
  sleeps (fst (announce out fmt urls)) = 0%nat /\
  match snd (announce out fmt urls) with
  | inr true => prints (fst (announce out fmt urls)) = url_block urls
  | inr false => exists k, out k <> None
  | inl e => is_Exception e = false /\ exists k, out k <> None
  end.
Proof.
  unfold announce.
  destruct (print_lines out 0 (url_block urls)) as [pevs [e|]] eqn:E.
  - pose proof (caught_facts e) as (Sl & _ & C).
    pose proof (print_lines_quiet _ _ _ E) as Q.
    apply print_lines_raises in E. destruct E as [j Hj].
    assert (X : exists k, out k <> None) by (exists j; congruence).
    destruct (caught e) as [handled [e'|b]]; cbn [fst snd] in *.
    + split.
      * change (sleeps (pevs ++ handled) = 0%nat). rewrite sleeps_app. lia.
      * destruct C as (-> & C & _). auto.
    + split.
      * change (sleeps (pevs ++ handled) = 0%nat). rewrite sleeps_app. lia.
      * destruct C as [-> _]. exact X.
  - cbn [fst snd]. pose proof (print_lines_quiet _ _ _ E) as Q.
    split; [exact Q|].
    apply print_lines_done in E. subst pevs.
    change (prints (map Print (url_block urls)) = url_block urls).
    apply prints_map_Print.
Qed.

(** One poll of a content, by what [extract] gives for it. *)
Lemma poll_content (content : str) (out : nat -> option exn) :
  exists seen,
    prints seen = [] /\ sleeps seen = 0%nat /\
    match extract content with
    | None => poll (Content content) out = (seen, inr false)
    | Some (p, urls) =>
        urls <> [] /\
        exists fmt,
          poll (Content content) out =
          (seen ++ fst (announce out fmt urls), snd (announce out fmt urls))
    end.
Proof.
  exists [Log INFO "Raw file content length: {len(content)}"
              [VInt (Z.of_nat (length content))];
          Log INFO "Cleaned content: {cleaned_content}" [VStr (clean content)]].
  split; [reflexivity|]. split; [reflexivity|].
  unfold poll, extract.
  destruct (unique_urls (clean content)) as [|u us].
  - destruct (tunnel_urls (clean content)) as [|t ts]; [reflexivity|].
    split; [discriminate|].
    exists "Found URLs (fallback): {tunnel_urls}"%string.
    destruct (announce out _ (t :: ts)) as [evs res]. reflexivity.
  - split; [discriminate|].
    exists "Found tunnel URLs: {unique_urls}"%string.
    destruct (announce out _ (u :: us)) as [evs res]. reflexivity.
Qed.

(** What one poll can do: go on, return after the block of URLs, or let
    an exception through that is no [Exception].  When it goes on it
    has found nothing, or a print has failed. *)
Lemma poll_cases (r : read_result) (out : nat -> option exn) :
  sleeps (fst (poll r out)) = 0%nat /\
  match snd (poll r out) with
  | inr false =>
      (finds_nothing r /\ prints (fst (poll r out)) = []) \/
      (exists k, out k <> None)
  | inr true =>
      exists content p urls,
        r = Content content /\ extract content = Some (p, urls) /\
        urls <> [] /\ prints (fst (poll r out)) = url_block urls
  | inl e =>
      is_Exception e = false /\
      ((r = Failed e /\ fst (poll r out) = []) \/ (exists k, out k <> None))
  end.
Proof.
  destruct r as [content|e].
  - destruct (poll_content content out) as (seen & P & Sl & H).
    unfold finds_nothing.
    destruct (extract content) as [[p urls]|] eqn:X.
    + destruct H as (Hne & fmt & ->). cbn [fst snd].
      destruct (announce_facts out fmt urls) as [Sa C].
      split; [rewrite sleeps_app; lia|].
      destruct (snd (announce out fmt urls)) as [e|[|]].
      * destruct C as [C1 C2]. auto.
      * exists content, p, urls. repeat split; auto.
        rewrite prints_app, P, C. reflexivity.
      * right. exact C.
    + rewrite H. cbn [fst snd]. split; [exact Sl|]. left. auto.
  - change (poll (Failed e) out) with (caught e).
    pose proof (caught_facts e) as (Sl & P & C).
    split; [exact Sl|].
    destruct (snd (caught e)) as [e'|[|]].
    + destruct C as (-> & C & Z). auto.
    + destruct C as [C _]. discriminate C.
    + left. simpl. tauto.
Qed.


(** A poll whose print breaks goes on. *)
Lemma poll_breaks (r : read_result) (out : nat -> option exn) :
  print_breaks r out -> exists evs, poll r out = (evs, inr false).
Proof.
  destruct r as [content|e]; [|intros []].
  intros (p & urls & k & e & X & Hk & Ho & He & Hb).
  destruct (poll_content content out) as (seen & _ & _ & H).
  rewrite X in H. destruct H as (_ & fmt & ->).
  unfold announce.
  rewrite (@print_lines_breaks out e (url_block urls) 0 k Hk Ho Hb).
  pose proof (caught_facts e) as (_ & _ & C).
  destruct (caught e) as [handled [e'|b]]; cbn [fst snd] in *.
  - destruct C as (_ & C & _). congruence.
  - destruct C as [-> _]. eauto.
Qed.

Lemma sleeps_head (t : list event) :
  sleeps (Sleep 2 :: Log INFO "Checking for URL..." [] :: t) = S (sleeps t).
Proof. reflexivity. Qed.

Lemma prints_head (t : list event) :
  prints (Sleep 2 :: Log INFO "Checking for URL..." [] :: t) = prints t.
Proof. reflexivity. Qed.


Section LoopFacts.
Variable w : sink_world.
Variable timeout : N.

Lemma pingy_out_loop_sleeps (fuel : nat) :
  forall i elapsed evs res,
    pingy_out_loop w timeout fuel i elapsed = Some (evs, res) ->
    sleeps evs = 0%nat \/
    elapsed + 2 * hz w * N.of_nat (sleeps evs - 1) < timeout * hz w.
Proof.
  induction fuel as [|fuel IH]; intros i elapsed evs res;
    rewrite pingy_out_loop_eq;
    destruct (N.ltb_spec elapsed (timeout * hz w)) as [Hlt|Hge];
    try discriminate.
  - intros H. injection H as <- _. left. reflexivity.
  - cbv zeta.
    pose proof (poll_cases (sink w i) (stdout w i)) as [Sl _].
    destruct (poll (sink w i) (stdout w i)) as [pevs [e|[|]]]; simpl in Sl.
    + intros H. injection H as <- _. right.
      cbn [app]. rewrite sleeps_head, Sl. cbn [Nat.sub N.of_nat]. lia.
    + intros H. injection H as <- _. right.
      cbn [app]. rewrite sleeps_head, Sl. cbn [Nat.sub N.of_nat]. lia.
    + destruct (pingy_out_loop w timeout fuel (S i) _) as [[rest r]|] eqn:E;
        [|discriminate].
      intros H. injection H as <- _. right.
      cbn [app]. rewrite sleeps_head, sleeps_app, Sl. cbn [Nat.add].
      replace (S (sleeps rest) - 1)%nat with (sleeps rest) by lia.
      apply IH in E. destruct E as [E|E].
      * rewrite E. cbn [N.of_nat]. lia.
      * destruct (sleeps rest) as [|k]; [cbn [N.of_nat]; lia|].
        replace (S k - 1)%nat with k in E by lia.
        rewrite Nat2N.inj_succ, N.mul_succ_r. lia.
  - intros H. injection H as <- _. left. reflexivity.
Qed.


(** The last thing printed, and the only one when no print fails. *)
Lemma pingy_out_loop_prints (fuel : nat) :
  forall i elapsed evs res,
    pingy_out_loop w timeout fuel i elapsed = Some (evs, res) ->
    match res with
    | inr FOUND =>
        exists earlier urls,
          urls <> [] /\ prints evs = earlier ++ url_block urls /\
          (stdout_works w -> earlier = [])
    | inr TIMED_OUT =>
        exists earlier,
          prints evs = earlier ++ prints timeout_events /\
          (stdout_works w -> earlier = [])
    | inl e => is_Exception e = false /\ (stdout_works w -> prints evs = [])
    end.
Proof.
  induction fuel as [|fuel IH]; intros i elapsed evs res;
    rewrite pingy_out_loop_eq;
    destruct (N.ltb_spec elapsed (timeout * hz w)) as [Hlt|Hge];
    try discriminate.
  - intros H. injection H as <- <-. exists []. split; [reflexivity|auto].
  - cbv zeta.
    pose proof (poll_cases (sink w i) (stdout w i)) as [_ C].
    assert (NW : stdout_works w -> ~ exists k, stdout w i k <> None)
      by (intros W [k Hk]; apply Hk; apply W).
    destruct (poll (sink w i) (stdout w i)) as [pevs [e|[|]]];
      cbn [fst snd] in C.
    + intros H. injection H as <- <-.
      destruct C as [C1 C2]. split; [exact C1|]. intros W.
      destruct C2 as [[_ ->]|C2]; [reflexivity|].
      exfalso. exact (NW W C2).
    + intros H. injection H as <- <-.
      destruct C as (c & p & urls & _ & _ & Hne & P).
      exists [], urls. split; [exact Hne|].
      cbn [app]. rewrite prints_head. split; [exact P|auto].
    + destruct (pingy_out_loop w timeout fuel (S i) _) as [[rest r]|] eqn:E;
        [|discriminate].
      intros H. injection H as <- <-.
      apply IH in E.
      assert (Q : stdout_works w -> prints pevs = []).
      { intros W. destruct C as [[_ C]|C]; [exact C|].
        exfalso. exact (NW W C). }
      cbn [app]. rewrite prints_head, prints_app.
      destruct r as [e|[|]].
      * destruct E as [E1 E2]. split; [exact E1|].
        intros W. rewrite (Q W), (E2 W). reflexivity.
      * destruct E as (earlier & urls & Hne & P & E2).
        exists (prints pevs ++ earlier), urls. split; [exact Hne|].
        split; [rewrite P, app_assoc; reflexivity|].
        intros W. rewrite (Q W), (E2 W). reflexivity.
      * destruct E as (earlier & P & E2).
        exists (prints pevs ++ earlier).
        split; [rewrite P, app_assoc; reflexivity|].
        intros W. rewrite (Q W), (E2 W). reflexivity.
  - intros H. injection H as <- <-. exists []. split; [reflexivity|auto].
Qed.

(** When every poll goes on, the loop ends by the clock. *)
Lemma pingy_out_loop_goes_on (fuel : nat) :
  (forall i, exists evs, poll (sink w i) (stdout w i) = (evs, inr false)) ->
  forall i elapsed,
    timeout * hz w <= elapsed + N.of_nat fuel * (2 * hz w) ->
    exists evs earlier,
      pingy_out_loop w timeout fuel i elapsed = Some (evs, inr TIMED_OUT) /\
      prints evs = earlier ++ prints timeout_events.
Proof.
  intros G.
  induction fuel as [|fuel IH]; intros i elapsed Hf;
    rewrite pingy_out_loop_eq;
    destruct (N.ltb_spec elapsed (timeout * hz w)) as [Hlt|Hge];
    try (exists timeout_events, []; split; reflexivity).
  - lia.
  - cbv zeta. destruct (G i) as [pevs ->].
    destruct (IH (S i) (elapsed + 2 * hz w + lag w i)) as (rest & earlier & -> & P);
      [lia|].
    exists ([Sleep 2; Log INFO "Checking for URL..." []] ++ pevs ++ rest),
      (prints pevs ++ earlier).
    split; [reflexivity|].
    cbn [app]. rewrite prints_head, prints_app, P, app_assoc. reflexivity.
Qed.
End LoopFacts.

(** X9. The scraper never polls more often than the timeout allows:
    twice the number of its polls is at most the timeout plus one (at
    most fifteen polls for the default of thirty time units), whatever
    the clock resolution, however long the polls take and however the
    run ends. *)
Theorem scraper_poll_bound (w : sink_world) (timeout : N)
        (evs : list event) (res : exn + scrape) :
  pingy_out w timeout = Some (evs, res) ->
  2 * N.of_nat (sleeps evs) <= timeout + 1.
Proof.
  intros H. apply pingy_out_loop_sleeps in H. destruct H as [H|H].
  - rewrite H. cbn [N.of_nat]. lia.
  - destruct (sleeps evs) as [|n]; [cbn [N.of_nat]; lia|].
    replace (S n - 1)%nat with n in H by lia.
    rewrite Nat2N.inj_succ. nia.
Qed.

Lemma scraper_poll_bound_witness :
  let w := {| hz := 3; sink := fun _ => Failed FileNotFoundError;
              stdout := fun _ _ => None;
              lag := fun i => N.of_nat i |} in
  exists evs,
    pingy_out w default_timeout = Some (evs, inr TIMED_OUT) /\
    sleeps evs = 9%nat /\
    2 * N.of_nat (sleeps evs) <= default_timeout + 1.
Proof.
  intros w.
  destruct (pingy_out w default_timeout) as [[evs res]|] eqn:E;
    [|discriminate E].
  exists evs.
  assert (B := @scraper_poll_bound w default_timeout evs res E).
  vm_compute in E. injection E as <- <-.
  split; [reflexivity|]. split; [reflexivity|exact B].
Defined.



(** X11. What the scraper prints last.  When it returns in the state
    [FOUND] the last lines it printed are the block of the URLs it
    found (never empty); when it times out the last line is the
    timeout message; an exception that leaves it is no [Exception].
    Before that it has printed the lines of the polls whose prints
    failed; when no print fails it prints this one thing, or nothing
    when an exception leaves it. *)
Theorem scraper_last_print (w : sink_world) (timeout : N)
        (evs : list event) (res : exn + scrape) :
  pingy_out w timeout = Some (evs, res) ->
  match res with
  | inr FOUND =>
      exists earlier urls,
        urls <> [] /\ prints evs = earlier ++ url_block urls /\
        (stdout_works w -> earlier = [])
  | inr TIMED_OUT =>
      exists earlier,
        prints evs =
          earlier ++ [lit nl ++ lit "Timeout reached, URL not found." ++ lit nl] /\
        (stdout_works w -> earlier = [])
  | inl e => is_Exception e = false /\ (stdout_works w -> prints evs = [])
  end.
Proof.
  intros H. apply pingy_out_loop_prints in H. exact H.
Qed.

Lemma scraper_last_print_witness :
  let url := lit "https://abc.a.free.pinggy.link" in
  let w := {| hz := 1;
              sink := fun _ => Content (lit "url: https://abc.a.free.pinggy.link");
              stdout := fun i k =>
                          match i, k with
                          | 0%nat, 2%nat => Some OtherError
                          | _, _ => None
                          end;
              lag := fun _ => 0 |} in
  exists evs,
    pingy_out w default_timeout = Some (evs, inr FOUND) /\
    prints evs =
      [lit nl ++ lit "Tunnel URLs:"; lit "  " ++ url] ++ url_block [url] /\
    exists earlier urls,
      urls <> [] /\ prints evs = earlier ++ url_block urls /\
      (stdout_works w -> earlier = []).
Proof.
  intros url w.
  destruct (pingy_out w default_timeout) as [[evs res]|] eqn:E;
    [|discriminate E].
  exists evs.
  assert (B := @scraper_last_print w default_timeout evs res E).
  vm_compute in E. injection E as <- <-.
  split; [reflexivity|]. split; [reflexivity|exact B].
Defined.

(** X12. The scraper always comes to an end: as every turn of the loop
    takes at least the two time units of its sleep, the condition of
    the [while] fails after finitely many polls, whatever the sink
    holds and however long the polls take. *)
Theorem scraper_always_ends (w : sink_world) (timeout : N) :
  exists evs res, pingy_out w timeout = Some (evs, res).
Proof.
  destruct (pingy_out w timeout) as [[evs res]|] eqn:E; [eauto|].
  exfalso. exact (pingy_out_total w timeout E).
Qed.

(** X21. An error of a print does not end the scraper.  When every
    poll either finds nothing or finds URLs and meets an [Exception] in
    one of its prints, the error is caught inside the loop, the scraper
    polls on to the timeout and returns in the state [TIMED_OUT]: the
    last line it prints is the timeout message, after the lines that
    went out before each error. *)
Theorem scraper_print_error_goes_on (w : sink_world) (timeout : N) :
  (forall i, finds_nothing (sink w i) \/ print_breaks (sink w i) (stdout w i)) ->
  exists evs earlier,
    pingy_out w timeout = Some (evs, inr TIMED_OUT) /\
    prints evs =
      earlier ++ [lit nl ++ lit "Timeout reached, URL not found." ++ lit nl].
Proof.
  intros H. unfold pingy_out.
  apply pingy_out_loop_goes_on; [|lia].
  intros i. destruct (H i) as [Hi|Hi].
  - destruct (@poll_nothing (sink w i) (stdout w i) Hi) as (evs & E & _). eauto.
  - apply poll_breaks. exact Hi.
Qed.

Lemma scraper_print_error_goes_on_witness :
  let url := lit "https://abc.a.free.pinggy.link" in
  let heading := lit nl ++ lit "Tunnel URLs:" in
  let w := {| hz := 1;
              sink := fun _ => Content (lit "url: https://abc.a.free.pinggy.link");
              stdout := fun _ k =>
                          match k with
                          | 1%nat => Some OtherError
                          | _ => None
                          end;
              lag := fun _ => 0 |} in
  (forall i, finds_nothing (sink w i) \/ print_breaks (sink w i) (stdout w i)) /\
  option_map (fun r => (prints (fst r), snd r)) (pingy_out w 5) =
    Some ([heading; heading; heading;
           lit nl ++ lit "Timeout reached, URL not found." ++ lit nl],
          inr TIMED_OUT) /\
  exists evs earlier,
    pingy_out w 5 = Some (evs, inr TIMED_OUT) /\
    prints evs =
      earlier ++ [lit nl ++ lit "Timeout reached, URL not found." ++ lit nl].
Proof.
  intros url heading w.
  assert (H : forall i, finds_nothing (sink w i) \/
                        print_breaks (sink w i) (stdout w i)).
  { intros i. right.
    exists Prioritized, [url], 1%nat, OtherError.
    split; [reflexivity|]. split; [simpl; lia|].
    split; [reflexivity|]. split; [reflexivity|].
    intros j Hj. destruct j as [|j]; [reflexivity|lia]. }
  split; [exact H|]. split; [reflexivity|].
  exact (@scraper_print_error_goes_on w 5 H).
Defined.

(* ================================================================== *)
(** * More on the selector, and the web UI *)
(* ================================================================== *)

(** The goals left by the case analysis, with the tests of the
    [except] clauses evaluated. *)
Ltac selector_more :=
  repeat
    match goal with
    | |- _ /\ _ => split
    | |- forall _, _ => intro
    | |- ~ _ => intro
    | H : Some _ = Some _ |- _ => injection H as H; subst
    | H : inl _ = inl _ |- _ => injection H as H; subst
    | H : Some _ = None |- _ => discriminate H
    | H : None = Some _ |- _ => discriminate H
    | H : In _ (_ :: _) |- _ => destruct H as [H|H]; [try subst|]
    | H : In _ [] |- _ => destruct H
    | H : _ /\ _ |- _ => destruct H
    | H : ?a = ?b, H' : ?a = ?c |- _ => rewrite H in H'
    end;
  cbn [is_process_or_not_found is_CalledProcessError is_Exception] in *;
  try congruence;
  try (cbn; tauto).

(** X13. A tunnel command that fails is handled like an absent helper:
    when the sshpass or the expect command ends in a process error or a
    missing executable, or the expect script cannot be written for such
    a reason, or the echo pipe ends in a process error, the selector
    goes on to the next mechanism. *)
Theorem selector_failure_falls_through (w : auth_world) (local_port : Z) :
  let out := run_pingy_in w local_port in
  let cmds := commands (snd out) in
  (forall e, In (Shell (sshpass_command local_port)) cmds ->
        proc w (Shell (sshpass_command local_port)) = Some e ->
        is_process_or_not_found e = true ->
        In (probe "expect") cmds) /\
  (forall e, In (probe "expect") cmds -> proc w (probe "expect") = None ->
        write w (in_cache "expect_script.exp") = Some e ->
        is_process_or_not_found e = true ->
        ~ In (Shell expect_command) cmds /\
        In (Shell (pipe_command local_port)) cmds) /\
  (forall e, In (Shell expect_command) cmds ->
        proc w (Shell expect_command) = Some e ->
        is_process_or_not_found e = true ->
        In (Shell (pipe_command local_port)) cmds) /\
  (forall e, In (Shell (pipe_command local_port)) cmds ->
        proc w (Shell (pipe_command local_port)) = Some e ->
        is_CalledProcessError e = true ->
        In (Shell (noauth_command local_port)) cmds).
Proof.
  cbv zeta. destruct (run_pingy_in w local_port) as [r t] eqn:R.
  selector_unfold. revert R. selector_unfold.
  selector_abstract local_port.
  selector_cases R w.
  all: selector_more.
Qed.

Lemma selector_failure_falls_through_witness :
  let w := {| proc := fun c =>
                        match c with
                        | Argv _ => None
                        | Shell _ => Some CalledProcessError
                        end;
              write := fun _ => None |} in
  commands (snd (run_pingy_in w 7860)) = schedule 7860 /\
  In (probe "expect") (commands (snd (run_pingy_in w 7860))) /\
  In (Shell (noauth_command 7860)) (commands (snd (run_pingy_in w 7860))).
Proof.
  intros w. split; [reflexivity|].
  pose proof (selector_failure_falls_through w 7860) as (H1 & _ & _ & H4).
  split.
  - apply (H1 CalledProcessError); [simpl; tauto|reflexivity|reflexivity].
  - apply (H4 CalledProcessError); [simpl; tauto|reflexivity|reflexivity].
Defined.

(** X14. A process error never leaves the selector, and a
    [KeyboardInterrupt] always does: whichever command it interrupts is
    the last command run, and the selector raises it. *)
Theorem selector_interrupt_leaves (w : auth_world) (local_port : Z) :
  let out := run_pingy_in w local_port in
  let cmds := commands (snd out) in
  fst out <> inl CalledProcessError /\
  (forall c, In c cmds -> proc w c = Some KeyboardInterrupt ->
        fst out = inl KeyboardInterrupt /\ last cmds c = c).
Proof.
  cbv zeta. destruct (run_pingy_in w local_port) as [r t] eqn:R.
  selector_unfold. revert R. selector_unfold.
  selector_abstract local_port.
  selector_cases R w.
  all: selector_more.
Qed.

Lemma selector_interrupt_leaves_witness :
  let w := {| proc := fun c =>
                        match c with
                        | Argv _ => Some FileNotFoundError
                        | Shell _ => Some KeyboardInterrupt
                        end;
              write := fun _ => None |} in
  let out := run_pingy_in w 7860 in
  commands (snd out) =
    [probe "sshpass"; probe "expect"; Shell (pipe_command 7860)] /\
  fst out = inl KeyboardInterrupt.
Proof.
  intros w out. split; [reflexivity|].
  apply (proj2 (selector_interrupt_leaves w 7860) (Shell (pipe_command 7860)));
    [simpl; tauto|reflexivity].
Defined.

(** X15. The line "All methods failed" tells the truth: when it is
    logged the selector has returned, the echo pipe and the command
    without [auth] were both run, and no tunnel command that was run
    succeeded. *)
Theorem all_methods_failed_is_true (w : auth_world) (local_port : Z) (e : exn) :
  let out := run_pingy_in w local_port in
  let cmds := commands (snd out) in
  In (Log ERROR "All methods failed: {e}" [VExn e]) (snd out) ->
  fst out = inr tt /\
  In (Shell (pipe_command local_port)) cmds /\
  In (Shell (noauth_command local_port)) cmds /\
  (forall c, In c (mechanisms local_port) -> In c cmds -> proc w c <> None).
Proof.
  cbv zeta. destruct (run_pingy_in w local_port) as [r t] eqn:R.
  unfold mechanisms. selector_unfold. revert R. selector_unfold.
  selector_abstract local_port.
  selector_cases R w.
  all: match goal with
       | Hlog : In (Log ERROR _ _) _ |- _ =>
           cbn in Hlog;
           repeat (destruct Hlog as [Hlog|Hlog]; [try discriminate Hlog|]);
           try (match type of Hlog with False => destruct Hlog end)
       end.
  all: selector_more.
Qed.

Lemma all_methods_failed_is_true_witness :
  let out := run_pingy_in nothing_works 7860 in
  In (Log ERROR "All methods failed: {e}" [VExn CalledProcessError]) (snd out) /\
  fst out = inr tt /\
  In (Shell (noauth_command 7860)) (commands (snd out)).
Proof.
  assert (H : In (Log ERROR "All methods failed: {e}" [VExn CalledProcessError])
                 (snd (run_pingy_in nothing_works 7860)))
    by (vm_compute; tauto).
  split; [exact H|].
  pose proof (@all_methods_failed_is_true nothing_works 7860 CalledProcessError H)
    as (H1 & _ & H3 & _).
  split; assumption.
Defined.



(** X17. The web UI unit never lets an [Exception] out: it runs the
    command once through the shell; when the command ends well nothing
    more happens, when it raises a process error or any other
    [Exception] one error line is logged and [webui] returns; only an
    exception that is no [Exception] leaves it. *)
Theorem webui_contains_failures (w : auth_world) (command : string) :
  let out := webui w command [] in
  commands (snd out) = [Shell command] /\
  match proc w (Shell command) with
  | None => fst out = inr tt /\ last (snd out) (Run (Shell command)) = Run (Shell command)
  | Some e =>
      if is_Exception e
      then fst out = inr tt /\
           exists fmt, last (snd out) (Run (Shell command)) = Log ERROR fmt [VExn e]
      else fst out = inl e
  end.
Proof.
  unfold webui, bind, try_except, subprocess_run, log, modify, snoc.
  cbn beta iota.
  destruct (proc w (Shell command)) as [e|]; cbn.
  - destruct e; cbn; eauto.
  - auto.
Qed.

(* ================================================================== *)
(** * More on the coordinator *)
(* ================================================================== *)

(** X18. All three children are started before any of them is joined:
    a run in which a join takes place began with the three starts, in
    the order web UI, selector, scraper. *)
Theorem starts_before_joins (w : coord_world) (fs : list string)
        (target : string) :
  In (Join target) (trace (snd (run_runn w fs))) ->
  firstn 3 (trace (snd (run_runn w fs))) =
  [Start "webui"; Start "pingy_in"; Start "pingy_out"].
Proof.
  destruct (run_runn w fs) as [r st] eqn:R.
  coordinator_cases R w.
  all: intros H; try reflexivity; exfalso; cbn in H;
    repeat (destruct H as [H|H]; [discriminate H|]); exact H.
Qed.

Lemma starts_before_joins_witness :
  let w := {| during := fun _ fs => fs;
              ending := fun ev => match ev with
                                  | Join "webui" => Some OtherError
                                  | _ => None
                                  end;
              status := fun _ => 0%Z;
              afterwards := fun fs => fs |} in
  trace (snd (run_runn w [])) =
    [Start "webui"; Start "pingy_in"; Start "pingy_out"; Join "webui";
     Run (Shell remove_sink)] /\
  firstn 3 (trace (snd (run_runn w []))) =
    [Start "webui"; Start "pingy_in"; Start "pingy_out"].
Proof.
  intros w. split; [vm_compute; reflexivity|].
  apply (@starts_before_joins w [] "webui"). vm_compute. tauto.
Defined.

(** X19. How the coordinator ends.  When no step of the body raises it
    returns after one cleanup.  A [KeyboardInterrupt] in the body is
    caught: the coordinator logs and prints [^C], cleans up in the
    handler and again at the end, and returns.  Any other error of a
    start or a join is raised again after the one cleanup, and nothing
    is printed. *)
Theorem runn_ways_out (w : coord_world) (fs : list string) :
  let out := run_runn w fs in
  let t := trace (snd out) in
  match first_raise (ending w) body_steps with
  | None =>
      fst out = inr tt /\ prints t = [] /\
      commands t = [Shell remove_sink]
  | Some e =>
      if is_KeyboardInterrupt e
      then ending w (Log INFO "^C" []) = None ->
           ending w (Print (lit "^C")) = None ->
           fst out = inr tt /\ prints t = [lit "^C"] /\
           commands t = [Shell remove_sink; Shell remove_sink]
      else fst out = inl e /\ prints t = [] /\
           commands t = [Shell remove_sink]
  end.
Proof.
  cbv zeta. destruct (run_runn w fs) as [r st] eqn:R.
  unfold body_steps. cbn [first_raise].
  coordinator_cases R w.
  all: repeat match goal with
         | H : ?a = _ |- context [?a] => rewrite H
         end;
       cbn [first_raise];
       repeat match goal with
         | H : ?a = _ |- context [?a] => rewrite H
         | |- _ -> _ => intro
         | H : Some _ = None |- _ => discriminate H
         | H : None = Some _ |- _ => discriminate H
         end;
       repeat split.
Qed.

Lemma runn_ways_out_witness :
  let w := {| during := fun _ fs => fs;
              ending := fun ev => match ev with
                                  | Join "pingy_in" => Some KeyboardInterrupt
                                  | _ => None
                                  end;
              status := fun _ => 0%Z;
              afterwards := fun fs => fs |} in
  let out := run_runn w [output_file] in
  fst out = inr tt /\ prints (trace (snd out)) = [lit "^C"] /\
  commands (trace (snd out)) = [Shell remove_sink; Shell remove_sink].
Proof.
  intros w. exact (runn_ways_out w [output_file] eq_refl eq_refl).
Defined.

(** X20. The coordinator itself acts on the file system through one
    command only.  Whatever happens to its steps, the commands it runs
    are the [rm -rf] of the sink, once, or twice; twice only when a
    [KeyboardInterrupt] was raised in the body; and it writes no file. *)
Theorem runn_only_cleans (w : coord_world) (fs : list string) :
  let t := trace (snd (run_runn w fs)) in
  (commands t = [Shell remove_sink] \/
   (commands t = [Shell remove_sink; Shell remove_sink] /\
    exists e, first_raise (ending w) body_steps = Some e /\
              is_KeyboardInterrupt e = true)) /\
  (forall file data, ~ In (WriteFile file data) t).
Proof.
  cbv zeta. destruct (run_runn w fs) as [r st] eqn:R.
  unfold body_steps. cbn [first_raise].
  coordinator_cases R w.
  all: repeat match goal with
         | H : ?a = _ |- context [?a] => rewrite H
         end;
       (split;
        [ first [ left; reflexivity
                | right; split; [reflexivity|]; eexists; split;
                  [reflexivity|assumption] ]
        | intros file data H; cbn in H;
          repeat (destruct H as [H|H]; [discriminate H|]); exact H ]).
Qed.
